(** * Salve: patterns, events and walkers of the validator core

    A shallow embedding of [lib/salve/patterns/base.ts] (events, the pattern
    base classes, [Walker], [SingleSubwalker], [Ref], [Define]),
    [lib/salve/patterns/empty.ts] and [lib/salve/patterns/value.ts].

    JavaScript objects are identified by the identifier their constructor
    draws from the class counter ([P<n>] for patterns, [E<n>] for events,
    [W<n>] for walkers); the number [n] stands for the identifier string.
    Fields that the code assigns after construction on objects that are
    shared ([Ref.resolvesTo], [Value._value], the event cache, event sets,
    name resolvers) live in a store that every operation threads. *)

From Stdlib Require Import NArith String Ascii List Lia.
From stdpp Require Import base option list gmap.

Set Default Proof Using "Type".
#[local] Set Warnings "-clear-no-such-hyp".

(** ** JavaScript strings *)

(** A JavaScript string is a sequence of UTF-16 code units. *)
Definition jsstring : Type := list N.

(** The code units of an ASCII literal. *)
Definition js (s : string) : jsstring :=
  List.map N_of_ascii (list_ascii_of_string s).

(** [String(undefined)], what [RegExp.prototype.test] and [Array.prototype.join]
    see for a missing argument. *)
Definition undefined_string : jsstring := js "undefined".

(** The code units matched by [\s]: WhiteSpace and LineTerminator of
    ECMAScript (tab, LF, VT, FF, CR, space, NBSP, U+1680, U+2000..U+200A,
    U+2028, U+2029, U+202F, U+205F, U+3000, U+FEFF). *)
Definition is_whitespace (c : N) : bool :=
  ((9 <=? c) && (c <=? 13) || (c =? 32) || (c =? 160) || (c =? 5760)
   || (8192 <=? c) && (c <=? 8202) || (c =? 8232) || (c =? 8233)
   || (c =? 8239) || (c =? 8287) || (c =? 12288) || (c =? 65279))%N.

(** [/\S/.test(s)]: some code unit of [s] is not white space. *)
Definition test_S (s : jsstring) : bool :=
  existsb (fun c => negb (is_whitespace c)) s.

(** [/\S/.test(params[0])]: a missing element is [undefined], which [test]
    converts to the string ["undefined"]. *)
Definition test_S_arg (arg : option jsstring) : bool :=
  test_S (default undefined_string arg).

(** [Array.prototype.join()] on strings, with the default separator [","]. *)
Fixpoint join (params : list jsstring) : jsstring :=
  match params with
  | [] => []
  | [a] => a
  | a :: rest => a ++ js "," ++ join rest
  end.

(** ** Results *)

Inductive ValidationError : Type :=
| mkValidationError (msg : jsstring).

(** [FireEventResult = false | undefined | ValidationError[]]. *)
Inductive FireEventResult : Type :=
| Ok                                        (* [false] *)
| NoMatch                                   (* [undefined] *)
| Errors (errs : list ValidationError).

(** [EndResult = false | ValidationError[]]. *)
Inductive EndResult : Type :=
| EndOk                                     (* [false] *)
| EndErrors (errs : list ValidationError).

(** ** EmptyWalker.fireEvent *)

Definition EmptyWalker_fireEvent (name : jsstring) (params : list jsstring)
  : FireEventResult :=
  if bool_decide (name = js "text") && negb (test_S_arg (params !! 0))
  then Ok else NoMatch.


(** ** Exceptions and the store *)

Inductive Exn : Type :=
| Error (msg : jsstring)                    (* [throw new Error(msg)] *)
| TypeError.                                (* member access on [undefined] *)

Inductive Res (A : Type) : Type :=
| Return (a : A)
| Throw (e : Exn).
Arguments Return {A} a.
Arguments Throw {A} e.

(** A value of type [any], as far as [Value.value] inspects it. *)
Inductive any : Type :=
| undefined
| null
| parsed (v : jsstring).

(** [x != null] *)
Definition not_nullish (x : any) : bool :=
  match x with parsed _ => true | _ => false end.

(** Modelled from the spec: the name resolver ([lib/salve/name_resolver.ts] is
    not among the sources).  "Stack of prefix->URI mappings; resolves QNames;
    cloneable via memo".  The innermost context comes first.  A new resolver
    has one context, into which [Value.value] calls [definePrefix]. *)
Definition NameResolver : Type := list (gmap jsstring jsstring).

Definition NameResolver_new : NameResolver := [∅].

Definition definePrefix (prefix uri : jsstring) (nr : NameResolver)
  : NameResolver :=
  match nr with
  | [] => []
  | top :: rest => <[prefix := uri]> top :: rest
  end.

Fixpoint lookupPrefix (prefix : jsstring) (nr : NameResolver)
  : option jsstring :=
  match nr with
  | [] => None
  | top :: rest =>
      match top !! prefix with
      | Some uri => Some uri
      | None => lookupPrefix prefix rest
      end
  end.

(** Splits a qualified name at its first colon. *)
Fixpoint split_colon (s : jsstring) : option (jsstring * jsstring) :=
  match s with
  | [] => None
  | c :: rest =>
      if (c =? 58)%N then Some ([], rest)
      else match split_colon rest with
           | Some (p, l) => Some (c :: p, l)
           | None => None
           end
  end.

(** [resolveName(qname, attribute)]: "The default-namespace mapping applies to
    element QNames but not to attribute QNames (attributes with no prefix are
    in the no-namespace)."  The result is the pair [(ns, local name)], absent
    when the prefix is not bound. *)
Definition resolveName (qname : jsstring) (attribute : bool)
    (nr : NameResolver) : option (jsstring * jsstring) :=
  match split_colon qname with
  | Some (prefix, local) =>
      match lookupPrefix prefix nr with
      | Some uri => Some (uri, local)
      | None => None
      end
  | None =>
      if attribute then Some ([], qname)
      else Some (default [] (lookupPrefix [] nr), qname)
  end.

(** The [Datatype] interface of [lib/salve/datatypes]; implementations are
    external.  The context [{ resolver }] is seen through the content of the
    resolver at the time of the call; the lexical form handed to [equal] is
    [params[0]], which is absent for an event without parameters. *)
Record Datatype : Type := mkDatatype {
  needsContext : bool;
  parseValue : jsstring -> jsstring -> option NameResolver -> Res any;
  equal : option jsstring -> any -> option NameResolver -> Res bool;
}.

(** ** Patterns *)

(** The fields every pattern has: [id] is the [n] of ["P<n>"]. *)
Record BasePattern : Type := mkBasePattern {
  id : nat;
  xmlPath : jsstring;
}.

(** An instance of class [Value]; [_value] is in the store. *)
Record Value : Type := mkValue {
  Value_super : BasePattern;
  datatype : Datatype;
  rawValue : jsstring;
  type : jsstring;
  datatypeLibrary : jsstring;
  ns : jsstring;
}.

(** The pattern classes of the sources.  [Ref.resolvesTo] is in the store. *)
Inductive Pattern : Type :=
| Empty (super : BasePattern)
| ValueP (v : Value)
| Ref (super : BasePattern) (name : jsstring)
| Define (super : BasePattern) (name : jsstring) (pat : Pattern)
| TwoSubpatterns (super : BasePattern) (patA patB : Pattern).

Definition Pattern_super (p : Pattern) : BasePattern :=
  match p with
  | Empty b | Ref b _ | Define b _ _ | TwoSubpatterns b _ _ => b
  | ValueP v => Value_super v
  end.

(** [hash()] returns [this.id]. *)
Definition Pattern_hash (p : Pattern) : nat := id (Pattern_super p).

(** The [pat] field, which only [OneSubpattern] instances have. *)
Definition Pattern_pat (p : Pattern) : option Pattern :=
  match p with
  | Define _ _ pat => Some pat
  | _ => None
  end.

(** ** Events *)

Record Event : Type := mkEvent {
  Event_id : nat;
  Event_params : list jsstring;
  Event_key : jsstring;
}.

(** The two call forms of the constructor: [new Event(a, b, ...)] and
    [new Event([a, b, ...])]. *)
Inductive EventArgs : Type :=
| Spread (args : list jsstring)
| OneArray (arr : list jsstring).

Definition EventArgs_params (args : EventArgs) : list jsstring :=
  match args with
  | Spread l => l
  | OneArray l => l
  end.

(** ** The store *)

Record Heap : Type := mkHeap {
  Pattern__id : nat;                        (* [BasePattern.__id] *)
  Event__id : nat;                          (* [Event.__id] *)
  Event__cache : gmap jsstring Event;       (* [Event.__cache] *)
  Walker__id : nat;                         (* [Walker.__id] *)
  Ref_resolvesTo : gmap nat Pattern;        (* [resolvesTo] of the Ref [P<n>] *)
  Value__value : gmap nat any;              (* [_value] of the Value [P<n>] *)
  EventSets : gmap nat (list Event);        (* the [EventSet] objects *)
  NameResolvers : gmap nat NameResolver;    (* the [NameResolver] objects *)
}.

Definition empty_heap : Heap := mkHeap 0 0 ∅ 0 ∅ ∅ ∅ ∅.

Definition set_Pattern__id (n : nat) (h : Heap) : Heap :=
  mkHeap n (Event__id h) (Event__cache h) (Walker__id h) (Ref_resolvesTo h)
    (Value__value h) (EventSets h) (NameResolvers h).
Definition set_Event (n : nat) (c : gmap jsstring Event) (h : Heap) : Heap :=
  mkHeap (Pattern__id h) n c (Walker__id h) (Ref_resolvesTo h)
    (Value__value h) (EventSets h) (NameResolvers h).
Definition set_Walker__id (n : nat) (h : Heap) : Heap :=
  mkHeap (Pattern__id h) (Event__id h) (Event__cache h) n (Ref_resolvesTo h)
    (Value__value h) (EventSets h) (NameResolvers h).
Definition set_Ref_resolvesTo (m : gmap nat Pattern) (h : Heap) : Heap :=
  mkHeap (Pattern__id h) (Event__id h) (Event__cache h) (Walker__id h) m
    (Value__value h) (EventSets h) (NameResolvers h).
Definition set_Value__value (m : gmap nat any) (h : Heap) : Heap :=
  mkHeap (Pattern__id h) (Event__id h) (Event__cache h) (Walker__id h)
    (Ref_resolvesTo h) m (EventSets h) (NameResolvers h).
Definition set_EventSets (m : gmap nat (list Event)) (h : Heap) : Heap :=
  mkHeap (Pattern__id h) (Event__id h) (Event__cache h) (Walker__id h)
    (Ref_resolvesTo h) (Value__value h) m (NameResolvers h).
Definition set_NameResolvers (m : gmap nat NameResolver) (h : Heap) : Heap :=
  mkHeap (Pattern__id h) (Event__id h) (Event__cache h) (Walker__id h)
    (Ref_resolvesTo h) (Value__value h) (EventSets h) m.

(** Computations over the store that may throw. *)
Definition M (A : Type) : Type := Heap -> Res A * Heap.

Definition ret {A : Type} (a : A) : M A := fun h => (Return a, h).
Definition throw {A : Type} (e : Exn) : M A := fun h => (Throw e, h).
Definition bind {A B : Type} (m : M A) (k : A -> M B) : M B :=
  fun h =>
    match m h with
    | (Return a, h') => k a h'
    | (Throw e, h') => (Throw e, h')
    end.
(** A pure step that may throw. *)
Definition lift {A : Type} (r : Res A) : M A := fun h => (r, h).
Definition get_heap : M Heap := fun h => (Return h, h).

Declare Scope js_scope.
Delimit Scope js_scope with js.
Notation "'do' x <- m ; k" := (bind m (fun x => k))
  (at level 10, x name, m at level 100, k at level 200) : js_scope.
Notation "'do' ( x , y ) <- m ; k" := (bind m (fun '(x, y) => k))
  (at level 10, x name, y name, m at level 100, k at level 200) : js_scope.
Open Scope js_scope.


(** ** Pattern construction *)

(** [BasePattern.__newID]: [Pattern.__id++]. *)
Definition BasePattern___newID : M nat :=
  fun h => (Return (Pattern__id h), set_Pattern__id (S (Pattern__id h)) h).

(** [BasePattern.constructor]. *)
Definition BasePattern_new (xmlPath : jsstring) : M BasePattern :=
  do n <- BasePattern___newID;
  ret (mkBasePattern n xmlPath).

Definition Empty_new (xmlPath : jsstring) : M Pattern :=
  do b <- BasePattern_new xmlPath; ret (Empty b).

Definition Ref_new (xmlPath name : jsstring) : M Pattern :=
  do b <- BasePattern_new xmlPath; ret (Ref b name).

Definition Define_new (xmlPath name : jsstring) (pat : Pattern) : M Pattern :=
  do b <- BasePattern_new xmlPath; ret (Define b name pat).

Definition TwoSubpatterns_new (xmlPath : jsstring) (patA patB : Pattern)
  : M Pattern :=
  do b <- BasePattern_new xmlPath; ret (TwoSubpatterns b patA patB).

(** The datatype registry of [lib/salve/datatypes], which is not among the
    sources: [registry.get(library)] throws or gives the library, whose
    [types] maps a type name to its datatype. *)
Definition Registry : Type := jsstring -> Res (jsstring -> option Datatype).

(** [Value.constructor]; an absent [type] is ["token"], an absent
    [datatypeLibrary] or [ns] is [""]. *)
Definition Value_new (registry : Registry) (xmlPath value : jsstring)
    (type datatypeLibrary ns : option jsstring) : M Value :=
  let type := default (js "token") type in
  let datatypeLibrary := default [] datatypeLibrary in
  let ns := default [] ns in
  do b <- BasePattern_new xmlPath;
  do types <- lift (registry datatypeLibrary);
  match types type with
  | None => throw (Error (js "unknown type: " ++ type))
  | Some dt => ret (mkValue b dt value type datatypeLibrary ns)
  end.

(** [hasEmptyPattern()] of [Value]. *)
Definition Value_hasEmptyPattern (el : Value) : bool :=
  bool_decide (rawValue el = []).

(** Allocation of a new object in a map of objects. *)
Definition new_NameResolver (nr : NameResolver) : M nat :=
  fun h =>
    let l := fresh (dom (NameResolvers h)) in
    (Return l, set_NameResolvers (<[l := nr]> (NameResolvers h)) h).

Definition read_NameResolver (l : nat) (h : Heap) : NameResolver :=
  default [] (NameResolvers h !! l).

(** [nr.definePrefix(prefix, uri)] on the resolver object [l]. *)
Definition NameResolver_definePrefix (l : nat) (prefix uri : jsstring)
  : M unit :=
  fun h =>
    (Return tt,
     set_NameResolvers
       (<[l := definePrefix prefix uri (read_NameResolver l h)]>
          (NameResolvers h)) h).

(** [nr.clone()]: a new resolver object with the same contexts. *)
Definition NameResolver_clone (l : nat) : M nat :=
  do h <- get_heap; new_NameResolver (read_NameResolver l h).

(** What a datatype sees of the context [{ resolver }] or [undefined]. *)
Definition read_context (context : option nat) (h : Heap)
  : option NameResolver :=
  match context with
  | Some l => Some (read_NameResolver l h)
  | None => None
  end.

(** The getter [Value.value]. *)
Definition Value_value (el : Value) : M any :=
  do h <- get_heap;
  let ret_ := default undefined (Value__value h !! id (Value_super el)) in
  if not_nullish ret_ then ret ret_
  else
    do context <-
      (if needsContext (datatype el) then
         do nr <- new_NameResolver NameResolver_new;
         do unused <- NameResolver_definePrefix nr [] (ns el);
         ret (Some nr)
       else ret None);
    do h1 <- get_heap;
    do v <- lift (parseValue (datatype el) (xmlPath (Value_super el))
                    (rawValue el) (read_context context h1));
    fun h2 =>
      (Return v,
       set_Value__value (<[id (Value_super el) := v]> (Value__value h2)) h2).

(** ** Resolution of references *)

(** [_resolve(definitions)] of [BasePattern], [OneSubpattern],
    [TwoSubpatterns] and [Ref].  The result [None] is [undefined]. *)
Fixpoint _resolve (definitions : gmap jsstring Pattern) (p : Pattern)
  : M (option (list Pattern)) :=
  match p with
  | Empty _ | ValueP _ => ret None
  | Define _ _ pat => _resolve definitions pat
  | TwoSubpatterns _ patA patB =>
      do a <- _resolve definitions patA;
      do b <- _resolve definitions patB;
      match a, b with
      | Some a, Some b => ret (Some (a ++ b))
      | Some a, None => ret (Some a)
      | None, _ => ret b
      end
  | Ref super name =>
      fun h =>
        match definitions !! name with
        | Some d =>
            (Return None,
             set_Ref_resolvesTo (<[id super := d]> (Ref_resolvesTo h)) h)
        | None =>
            (Return (Some [p]),
             set_Ref_resolvesTo (delete (id super) (Ref_resolvesTo h)) h)
        end
  end.

(** ** Event interning *)

(** [Event.constructor]. *)
Definition Event_new (args : EventArgs) : M Event :=
  fun h =>
    let params := EventArgs_params args in
    let key := join params in
    match Event__cache h !! key with
    | Some cached => (Return cached, h)
    | None =>
        let this := mkEvent (Event__id h) params key in
        (Return this,
         set_Event (S (Event__id h)) (<[key := this]> (Event__cache h)) h)
    end.

(** Modelled from the spec: the event set ([lib/salve/set.ts] and
    [makeEventSet] are not among the sources).  "Event & event set:
    Value-typed parse events; efficient union/copy".  A set object holds its
    elements; the constructor copies the elements of its argument into a new
    object. *)
Definition new_EventSet (elements : list Event) : M nat :=
  fun h =>
    let l := fresh (dom (EventSets h)) in
    (Return l, set_EventSets (<[l := elements]> (EventSets h)) h).

Definition read_EventSet (l : nat) (h : Heap) : list Event :=
  default [] (EventSets h !! l).

(** [new EventSet(other)] *)
Definition EventSet_copy (other : nat) : M nat :=
  do h <- get_heap; new_EventSet (read_EventSet other h).

(** [makeEventSet()] and [makeEventSet(ev)] *)
Definition makeEventSet (initial : option Event) : M nat :=
  new_EventSet (match initial with Some ev => [ev] | None => [] end).

(** ** Walkers *)

(** The fields of class [Walker]; [id] is the [n] of ["W<n>"], and
    [possibleCached] points to an event set object.  [InternalWalker], the
    base class of [EmptyWalker] and [ValueWalker], is not among the sources;
    it is taken to have the constructor, [possible], [clone], [_clone] and
    [_cloneIfNeeded] of [Walker]. *)
Record WalkerBase (T : Type) : Type := mkWalkerBase {
  Walker_id : nat;
  el : T;
  possibleCached : option nat;
  suppressedAttributes : bool;
}.
Arguments mkWalkerBase {T} _ _ _ _.
Arguments Walker_id {T} _.
Arguments el {T} _.
Arguments possibleCached {T} _.
Arguments suppressedAttributes {T} _.

Definition set_possibleCached {T : Type} (c : option nat) (w : WalkerBase T)
  : WalkerBase T :=
  mkWalkerBase (Walker_id w) (el w) c (suppressedAttributes w).

(** The walker classes of the sources.  A walker holds its sub-walker; name
    resolvers are shared objects and held by reference. *)
Inductive Walker : Type :=
| EmptyWalker (super : WalkerBase BasePattern) (canEnd canEndAttribute : bool)
| ValueWalker (super : WalkerBase Value) (matched : bool)
    (context : option nat) (nameResolver : nat)
    (canEnd canEndAttribute : bool)
| DefineWalker (super : WalkerBase Pattern) (nameResolver : nat)
    (subwalker : Walker).

(** The pattern a walker observes. *)
Definition Walker_el (w : Walker) : Pattern :=
  match w with
  | EmptyWalker super _ _ => Empty (el super)
  | ValueWalker super _ _ _ _ _ => ValueP (el super)
  | DefineWalker super _ _ => el super
  end.

(** [hash()] returns [this.id]. *)
Definition Walker_hash (w : Walker) : nat :=
  match w with
  | EmptyWalker super _ _ => Walker_id super
  | ValueWalker super _ _ _ _ _ => Walker_id super
  | DefineWalker super _ _ => Walker_id super
  end.

(** [Walker.__newID]: [Walker.__id++]. *)
Definition Walker___newID : M nat :=
  fun h => (Return (Walker__id h), set_Walker__id (S (Walker__id h)) h).

(** [Walker.constructor(el)] *)
Definition Walker_new {T : Type} (el : T) : M (WalkerBase T) :=
  do n <- Walker___newID;
  ret (mkWalkerBase n el None false).

(** [Walker.constructor(other, memo)] *)
Definition Walker_copy {T : Type} (other : WalkerBase T) : M (WalkerBase T) :=
  do n <- Walker___newID;
  ret (mkWalkerBase n (el other) (possibleCached other)
         (suppressedAttributes other)).

(** [EmptyWalker.makeNew(el)] *)
Definition EmptyWalker_makeNew (el : BasePattern) : M Walker :=
  do super <- Walker_new el;
  ret (EmptyWalker super true true).

(** What loading [base.ts] and [empty.ts] does: [emptyEvent] and the
    [singleton] on its placeholder pattern. *)
Definition load_modules : M Walker :=
  do unused <- Event_new (Spread [js "<empty>"]);
  do fake <- BasePattern_new (js "FAKE ELEMENT");
  EmptyWalker_makeNew fake.

(** [const singleton = EmptyWalker.makeNew(new Empty("FAKE ELEMENT"))] with
    the store as the modules leave it. *)
Definition singleton : Walker :=
  EmptyWalker (mkWalkerBase 0 (mkBasePattern 0 (js "FAKE ELEMENT")) None false)
    true true.

Definition initial_heap : Heap := snd (load_modules empty_heap).

(** [new ValueWalker(el, nameResolver)] *)
Definition ValueWalker_new (el : Value) (nameResolver : nat) : M Walker :=
  do super <- Walker_new el;
  ret (ValueWalker super false
         (if needsContext (datatype el) then Some nameResolver else None)
         nameResolver
         (Value_hasEmptyPattern el) (Value_hasEmptyPattern el)).

(** What [addWalker(elCls, walkerCls)] assigns to
    [elCls.prototype.newWalker]: [new walkerCls(this, resolver)].  [empty.ts]
    runs [addWalker(Empty, EmptyWalker)] after the declaration of the class
    [Empty], whose body has a [newWalker] of its own; the constructor of
    [EmptyWalker] hands both arguments to the constructor of [Walker], which
    takes the pattern and does not read the second. *)
Definition addWalker_Empty (el : BasePattern) (resolver : nat) : M Walker :=
  do super <- Walker_new el;
  ret (EmptyWalker super true true).

(** [Empty.newWalker] as the body of the class declares it: it returns the
    singleton.  The assignment of [addWalker(Empty, EmptyWalker)] replaces
    it when [empty.ts] is loaded, so that no call of [newWalker] on an
    [Empty] reaches it. *)
Definition Empty_newWalker : M Walker := ret singleton.

(** [newWalker(resolver)] of [Empty], [Value] and [Define] (what
    [addWalker] assigns), [Ref], and the throwing default of [Pattern],
    which [TwoSubpatterns] inherits.  A reference cycle that crosses no
    element makes the JavaScript recursion unbounded; [fuel] bounds the
    depth and [None] is "no answer within this depth". *)
Fixpoint newWalker (fuel : nat) (p : Pattern) (resolver : nat) (h : Heap)
  : option (Res Walker * Heap) :=
  match fuel with
  | 0 => None
  | S fuel =>
      match p with
      | Empty b => Some (addWalker_Empty b resolver h)
      | ValueP v => Some (ValueWalker_new v resolver h)
      | Define _ _ pat =>
          match Walker_new p h with
          | (Return super, h1) =>
              match newWalker fuel pat resolver h1 with
              | Some (Return sub, h2) =>
                  Some (Return (DefineWalker super resolver sub), h2)
              | Some (Throw e, h2) => Some (Throw e, h2)
              | None => None
              end
          | (Throw e, h1) => Some (Throw e, h1)
          end
      | Ref super _ =>
          match Ref_resolvesTo h !! id super with
          | Some d =>
              match Pattern_pat d with
              | Some pat => newWalker fuel pat resolver h
              | None => Some (Throw TypeError, h)
              end
          | None => Some (Throw TypeError, h)
          end
      | TwoSubpatterns _ _ _ =>
          Some (Throw (Error (js "derived classes must override this")), h)
      end
  end.

(** ** Possible events *)

(** [EmptyWalker._possible()] *)
Definition EmptyWalker__possible (super : WalkerBase BasePattern)
  : M (nat * WalkerBase BasePattern) :=
  match possibleCached super with
  | Some c => ret (c, super)
  | None =>
      do c <- makeEventSet None;
      ret (c, set_possibleCached (Some c) super)
  end.

(** [ValueWalker._possible()] *)
Definition ValueWalker__possible (super : WalkerBase Value) (matched : bool)
  : M (nat * WalkerBase Value) :=
  match possibleCached super with
  | Some c => ret (c, super)
  | None =>
      do c <-
        (if matched then makeEventSet None
         else
           do ev <- Event_new (Spread [js "text"; rawValue (el super)]);
           makeEventSet (Some ev));
      ret (c, set_possibleCached (Some c) super)
  end.

(** [possible()]: [Walker.possible] copies what [_possible] returns;
    [EmptyWalker] overrides it; [SingleSubwalker._possible] is the
    sub-walker's [possible()].  The result is the set object returned and the
    walker as the call leaves it. *)
Fixpoint possible (w : Walker) : M (nat * Walker) :=
  match w with
  | EmptyWalker _ _ _ =>
      do s <- makeEventSet None; ret (s, w)
  | ValueWalker super matched context nameResolver canEnd canEndAttribute =>
      do (c, super') <- ValueWalker__possible super matched;
      do s <- EventSet_copy c;
      ret (s, ValueWalker super' matched context nameResolver
                canEnd canEndAttribute)
  | DefineWalker super nameResolver subwalker =>
      do (c, subwalker') <- possible subwalker;
      do s <- EventSet_copy c;
      ret (s, DefineWalker super nameResolver subwalker')
  end.

(** [_possible()] *)
Definition _possible (w : Walker) : M (nat * Walker) :=
  match w with
  | EmptyWalker super canEnd canEndAttribute =>
      do (c, super') <- EmptyWalker__possible super;
      ret (c, EmptyWalker super' canEnd canEndAttribute)
  | ValueWalker super matched context nameResolver canEnd canEndAttribute =>
      do (c, super') <- ValueWalker__possible super matched;
      ret (c, ValueWalker super' matched context nameResolver
                canEnd canEndAttribute)
  | DefineWalker super nameResolver subwalker =>
      do (c, subwalker') <- possible subwalker;
      ret (c, DefineWalker super nameResolver subwalker')
  end.

(** ** Firing events *)

(** [ValueWalker.fireEvent(name, params)] *)
Definition ValueWalker_fireEvent (w : Walker) (name : jsstring)
    (params : list jsstring) : M (FireEventResult * Walker) :=
  match w with
  | ValueWalker super matched context nameResolver canEnd canEndAttribute =>
      if matched || negb (bool_decide (name = js "text")) then
        ret (NoMatch, w)
      else
        do value <- Value_value (el super);
        do h <- get_heap;
        do eq <- lift (equal (datatype (el super)) (params !! 0) value
                         (read_context context h));
        if negb eq then ret (NoMatch, w)
        else
          ret (Ok, ValueWalker (set_possibleCached None super) true context
                     nameResolver true true)
  | _ => throw TypeError
  end.

(** The first argument of a [fireEvent] call.  The leaf walkers declare
    [fireEvent(name, params)] and compare [name] with a string;
    [SingleSubwalker] declares [fireEvent(ev)], for an event object. *)
Inductive FireArg : Type :=
| ArgName (name : jsstring)
| ArgEvent (ev : Event).

(** [arg === "text"]: an object is not strictly equal to a string. *)
Definition FireArg_is_text (arg : FireArg) : bool :=
  match arg with
  | ArgName name => bool_decide (name = js "text")
  | ArgEvent _ => false
  end.

(** [fireEvent(arg)] with one argument.  [SingleSubwalker.fireEvent(ev)] is
    [this.subwalker.fireEvent(ev)]: whatever it was called with, it hands
    its first argument on and nothing else, so that in the leaf walker
    [params] is [undefined].  There [params[0]] throws a [TypeError] when it
    is evaluated: in [EmptyWalker.fireEvent] when [name === "text"], in
    [ValueWalker.fireEvent] when the walker is unmatched and
    [name === "text"], as the first argument of [equal], before [value] is
    read.  Otherwise the answer is [undefined]. *)
Fixpoint SingleSubwalker_fireEvent (w : Walker) (arg : FireArg)
  : M (FireEventResult * Walker) :=
  match w with
  | EmptyWalker _ _ _ =>
      if FireArg_is_text arg then throw TypeError else ret (NoMatch, w)
  | ValueWalker _ matched _ _ _ _ =>
      if matched || negb (FireArg_is_text arg) then ret (NoMatch, w)
      else throw TypeError
  | DefineWalker super nameResolver subwalker =>
      do (r, subwalker') <- SingleSubwalker_fireEvent subwalker arg;
      ret (r, DefineWalker super nameResolver subwalker')
  end.

(** [fireEvent(name, params)]: the leaf walkers take both arguments; a
    walker with a sub-walker takes the first. *)
Definition fireEvent (w : Walker) (name : jsstring) (params : list jsstring)
  : M (FireEventResult * Walker) :=
  match w with
  | EmptyWalker _ _ _ => ret (EmptyWalker_fireEvent name params, w)
  | ValueWalker _ _ _ _ _ _ => ValueWalker_fireEvent w name params
  | DefineWalker _ _ _ => SingleSubwalker_fireEvent w (ArgName name)
  end.

(** Firing an event object on a walker, in the form the [fireEvent] of its
    class is declared with.  For a leaf walker the first parameter of the
    event is the event name and the others the parameters; an event without
    parameters has no name, which no walker of the sources matches.  A
    walker with a sub-walker takes the object. *)
Definition fire (w : Walker) (ev : Event) : M (FireEventResult * Walker) :=
  match w with
  | DefineWalker _ _ _ => SingleSubwalker_fireEvent w (ArgEvent ev)
  | _ =>
      match Event_params ev with
      | name :: params => fireEvent w name params
      | [] => ret (NoMatch, w)
      end
  end.

(** The fields [canEnd] of the leaf walkers. *)
Definition Walker_canEnd (w : Walker) : option bool :=
  match w with
  | EmptyWalker _ canEnd _ => Some canEnd
  | ValueWalker _ _ _ _ canEnd _ => Some canEnd
  | DefineWalker _ _ _ => None
  end.

Definition Walker_matched (w : Walker) : option bool :=
  match w with
  | ValueWalker _ matched _ _ _ _ => Some matched
  | _ => None
  end.

(** [ValueWalker.end(attribute)] *)
Definition ValueWalker_end (w : Walker) : Res EndResult :=
  match w with
  | ValueWalker super _ _ _ canEnd _ =>
      Return
        (if canEnd then EndOk
         else EndErrors
                [mkValidationError
                   (js "value required: " ++ rawValue (el super))])
  | _ => Throw TypeError
  end.

(** An event as handed to [fireEvent]. *)
Definition FiredEvent : Type := jsstring * list jsstring.

(** Firing a sequence of events on a walker: the result of each call, and
    the walker and store at the end.  A call that throws leaves the walker
    as it was. *)
Fixpoint fireEvents (w : Walker) (evs : list FiredEvent) (h : Heap)
  : list (Res FireEventResult) * Walker * Heap :=
  match evs with
  | [] => ([], w, h)
  | (name, params) :: evs =>
      match fireEvent w name params h with
      | (Return (r, w'), h') =>
          let '(rs, w'', h'') := fireEvents w' evs h' in
          (Return r :: rs, w'', h'')
      | (Throw e, h') =>
          let '(rs, w'', h'') := fireEvents w evs h' in
          (Throw e :: rs, w'', h'')
      end
  end.

(** ** Cloning *)

(** The memo of one [clone()] call: from an object to its copy.  Only name
    resolvers are entered. *)
Abbreviation Memo := (gmap nat nat).

(** [Walker._cloneIfNeeded(obj, memo)] *)
Definition _cloneIfNeeded (obj : nat) (memo : Memo) : M (nat * Memo) :=
  match memo !! obj with
  | Some other => ret (other, memo)
  | None =>
      do other <- NameResolver_clone obj;
      ret (other, <[obj := other]> memo)
  end.

(** [Walker._clone(memo)]: [new this.constructor(this, memo)], that is the
    copying branch of the constructor of the walker's class. *)
Fixpoint _clone (w : Walker) (memo : Memo) : M (Walker * Memo) :=
  match w with
  | EmptyWalker super _ _ =>
      do super' <- Walker_copy super;
      ret (EmptyWalker super' true true, memo)
  | ValueWalker super matched context nameResolver canEnd canEndAttribute =>
      do super' <- Walker_copy super;
      do (nameResolver', memo') <- _cloneIfNeeded nameResolver memo;
      ret (ValueWalker super' matched
             (match context with
              | Some _ => Some nameResolver'
              | None => None
              end)
             nameResolver' canEnd canEndAttribute, memo')
  | DefineWalker super nameResolver subwalker =>
      do super' <- Walker_copy super;
      do (nameResolver', memo1) <- _cloneIfNeeded nameResolver memo;
      do (subwalker', memo2) <- _clone subwalker memo1;
      ret (DefineWalker super' nameResolver' subwalker', memo2)
  end.

(** [clone()]: [Walker.clone] starts a new memo; [EmptyWalker.clone] returns
    [this]. *)
Definition clone (w : Walker) : M Walker :=
  match w with
  | EmptyWalker _ _ _ => ret w
  | _ => do (w', _) <- _clone w ∅; ret w'
  end.

(** ** Datatypes and objects of the examples *)

Global Instance any_eq_dec : EqDecision any.
Proof. solve_decision. Defined.

(** A datatype without context whose values are the lexical forms. *)
Definition lexical_datatype : Datatype :=
  mkDatatype false
    (fun _ value _ => Return (parsed value))
    (fun value schemaValue _ =>
       Return (bool_decide (parsed <$> value = Some schemaValue))).

(** Modelled from the spec: a datatype that needs a context ("QName",
    "NOTATION"; [lib/salve/datatypes] is not among the sources).  The value
    of a lexical form is the name it resolves to under the resolver of the
    context; a form that does not resolve is invalid, and is equal to
    nothing. *)
Definition QName_parse (value : jsstring) (context : option NameResolver)
  : Res any :=
  match context with
  | Some nr =>
      match resolveName value false nr with
      | Some (ns, local) => Return (parsed (js "{" ++ ns ++ js "}" ++ local))
      | None => Throw (Error (js "cannot resolve the name " ++ value))
      end
  | None => Throw TypeError
  end.

Definition QName_datatype : Datatype :=
  mkDatatype true
    (fun _ value context => QName_parse value context)
    (fun value schemaValue context =>
       match value with
       | Some value =>
           match QName_parse value context with
           | Return v => Return (bool_decide (v = schemaValue))
           | Throw (Error _) => Return false
           | Throw TypeError => Throw TypeError
           end
       | None => Throw TypeError
       end).

(** A registry with the builtin library [""] (types [token] and [string])
    and a library ["xsd"] with [QName]. *)
Definition example_registry : Registry :=
  fun library =>
    if bool_decide (library = []) then
      Return (fun type =>
                if bool_decide (type = js "token")
                   || bool_decide (type = js "string")
                then Some lexical_datatype else None)
    else if bool_decide (library = js "xsd") then
      Return (fun type =>
                if bool_decide (type = js "QName") then Some QName_datatype
                else None)
    else Throw (Error (js "can't get library with name " ++ library)).

(** The store after the modules are loaded and the caller has made a name
    resolver, the object [0], in which the default namespace is
    ["http://b"]. *)
Definition document_heap : Heap :=
  snd ((do nr <- new_NameResolver NameResolver_new;
        NameResolver_definePrefix nr [] (js "http://b")) initial_heap).

(** [value "x"] of type [token], and [value "foo"] of type [QName] declared
    in the namespace ["http://a"]: the first patterns a schema constructs
    after the modules are loaded. *)
Definition token_x : Value :=
  mkValue (mkBasePattern 1 (js "/element/value")) lexical_datatype
    (js "x") (js "token") [] [].

Definition qname_foo : Value :=
  mkValue (mkBasePattern 1 (js "/element/value")) QName_datatype
    (js "foo") (js "QName") (js "xsd") (js "http://a").

(** [value "p:x"] of type [QName], where no prefix [p] is declared. *)
Definition qname_p_x : Value :=
  mkValue (mkBasePattern 1 (js "/element/value")) QName_datatype
    (js "p:x") (js "QName") (js "xsd") (js "http://a").

(** The context a [Value] is parsed in: a resolver with the default prefix
    bound to the declared namespace, when the datatype needs one. *)
Definition schema_context (el : Value) : option NameResolver :=
  if needsContext (datatype el)
  then Some (definePrefix [] (ns el) NameResolver_new)
  else None.

(** ** Specification-side definitions *)

(** [_value] is unset or [null]. *)
Definition value_unset (el : Value) (h : Heap) : Prop :=
  not_nullish (default undefined (Value__value h !! id (Value_super el)))
  = false.

(** What the assignments of a successful [ValueWalker.fireEvent] leave:
    [matched] and both [canEnd] fields set, the cache dropped. *)
Definition after_match (w : Walker) : Walker :=
  match w with
  | ValueWalker super _ context nameResolver _ _ =>
      ValueWalker (set_possibleCached None super) true context nameResolver
        true true
  | _ => w
  end.

(** The [Ref] nodes of a pattern tree, in the order [_resolve] meets them.
    The tree is the one the [pat], [patA] and [patB] fields span; what a
    [Ref] resolves to is not part of it. *)
Fixpoint refs (p : Pattern) : list (BasePattern * jsstring) :=
  match p with
  | Empty _ | ValueP _ => []
  | Ref super name => [(super, name)]
  | Define _ _ pat => refs pat
  | TwoSubpatterns _ patA patB => refs patA ++ refs patB
  end.

(** The references of the tree that the definitions do not define. *)
Definition unresolved (definitions : gmap jsstring Pattern) (p : Pattern)
  : list Pattern :=
  (fun r => Ref r.1 r.2) <$>
    filter (fun r => definitions !! r.2 = None) (refs p).

(** A list of unresolved references as [_resolve] returns it. *)
Definition or_undefined {A : Type} (l : list A) : option (list A) :=
  match l with [] => None | _ => Some l end.

(** Two [Ref] nodes with the same identifier are the same object. *)
Definition refs_coherent (p : Pattern) : Prop :=
  forall b1 n1 b2 n2,
    (b1, n1) ∈ refs p -> (b2, n2) ∈ refs p -> id b1 = id b2 -> n1 = n2.

(** The name resolvers a walker and its sub-walkers hold, outermost first. *)
Fixpoint nameResolvers (w : Walker) : list nat :=
  match w with
  | EmptyWalker _ _ _ => []
  | ValueWalker _ _ _ nameResolver _ _ => [nameResolver]
  | DefineWalker _ nameResolver subwalker =>
      nameResolver :: nameResolvers subwalker
  end.

(** The identifiers of a walker and its sub-walkers. *)
Fixpoint walker_ids (w : Walker) : list nat :=
  match w with
  | DefineWalker super _ subwalker => Walker_id super :: walker_ids subwalker
  | _ => [Walker_hash w]
  end.

(** The cached possibility sets of a walker and its sub-walkers. *)
Fixpoint cached_sets (w : Walker) : list nat :=
  match w with
  | EmptyWalker super _ _ => option_list (possibleCached super)
  | ValueWalker super _ _ _ _ _ => option_list (possibleCached super)
  | DefineWalker super _ subwalker =>
      option_list (possibleCached super) ++ cached_sets subwalker
  end.

(** The caller overwrites the elements of the set object [s]. *)
Definition mutate_EventSet (s : nat) (elements : list Event) (h : Heap)
  : Heap :=
  set_EventSets (<[s := elements]> (EventSets h)) h.

(** The cached possibility sets of a walker are set objects of the store. *)
Definition cache_valid (w : Walker) (h : Heap) : Prop :=
  forall c, c ∈ cached_sets w -> is_Some (EventSets h !! c).

(** The elements of the set that [possible()] returns, read off the walker
    and the store: the cached set when there is one, else what
    [_possible] builds. *)
Fixpoint possible_events (w : Walker) (h : Heap) : list Event :=
  match w with
  | EmptyWalker _ _ _ => []
  | ValueWalker super matched _ _ _ _ =>
      match possibleCached super with
      | Some c => read_EventSet c h
      | None =>
          if matched then []
          else match (Event_new (Spread [js "text"; rawValue (el super)]) h).1
               with
               | Return ev => [ev]
               | Throw _ => []
               end
      end
  | DefineWalker _ _ subwalker => possible_events subwalker h
  end.

(** The memo of a running [clone()]: each entry leads from a name resolver
    of the store to a copy with the same contexts. *)
Definition memo_ok (memo : gmap nat nat) (h : Heap) : Prop :=
  forall r r',
    memo !! r = Some r' ->
    is_Some (NameResolvers h !! r) /\ is_Some (NameResolvers h !! r')
    /\ read_NameResolver r' h = read_NameResolver r h.

(** The states in which a walker's possible events are accepted.  The name
    resolvers are objects of the store.  For the Value walker under the
    sub-walker chain: its cached set, when it has one, is a set object that
    holds nothing but the event of the raw value, and nothing once the
    walker has matched; an event interned under the key of that event has
    its parameters; its context is on its name resolver; and while unmatched
    the datatype finds the raw form equal, in that context, to what [value]
    returns. *)
Fixpoint accepts_possible (w : Walker) (h : Heap) : Prop :=
  match w with
  | EmptyWalker _ _ _ => True
  | ValueWalker super matched context nameResolver _ _ =>
      (forall c, possibleCached super = Some c ->
         is_Some (EventSets h !! c) /\
         forall ev, ev ∈ read_EventSet c h ->
           matched = false /\
           Event_params ev = [js "text"; rawValue (el super)])
      /\ (forall ev,
            Event__cache h !! join [js "text"; rawValue (el super)] = Some ev ->
            Event_params ev = [js "text"; rawValue (el super)])
      /\ is_Some (NameResolvers h !! nameResolver)
      /\ (context = None \/ context = Some nameResolver)
      /\ (matched = false ->
          exists v,
            (Value_value (el super) h).1 = Return v /\
            equal (datatype (el super)) (Some (rawValue (el super))) v
              (read_context context h) = Return true)
  | DefineWalker _ nameResolver subwalker =>
      is_Some (NameResolvers h !! nameResolver)
      /\ accepts_possible subwalker h
  end.

(** Two stores between which the walkers' view is the same: the stored
    values, the interned events and the objects of the first are kept. *)
Definition store_kept (h h' : Heap) : Prop :=
  Value__value h' = Value__value h
  /\ Event__cache h' = Event__cache h
  /\ Event__id h' = Event__id h
  /\ (forall c, is_Some (EventSets h !! c) ->
                EventSets h' !! c = EventSets h !! c)
  /\ (forall l, is_Some (NameResolvers h !! l) ->
                NameResolvers h' !! l = NameResolvers h !! l).

(** ** Further operations of the sources *)

(** [Event.hash()] returns [this.id]. *)
Definition Event_hash (ev : Event) : nat := Event_id ev.

(** [Event.isAttributeEvent()]; the first parameter of an event without
    parameters is [undefined], which equals no string. *)
Definition Event_isAttributeEvent (ev : Event) : bool :=
  match Event_params ev with
  | kind :: _ =>
      bool_decide (kind = js "attributeName")
      || bool_decide (kind = js "attributeValue")
  | [] => false
  end.

Definition set_suppressedAttributes {T : Type} (b : bool) (w : WalkerBase T)
  : WalkerBase T :=
  mkWalkerBase (Walker_id w) (el w) (possibleCached w) b.

(** [_suppressAttributes()]: [EmptyWalker] and [ValueWalker] override it
    with an empty body; [SingleSubwalker] sets its flag and calls the
    sub-walker, unless its flag is set already. *)
Fixpoint _suppressAttributes (w : Walker) : Walker :=
  match w with
  | EmptyWalker _ _ _ => w
  | ValueWalker _ _ _ _ _ _ => w
  | DefineWalker super nameResolver subwalker =>
      if suppressedAttributes super then w
      else DefineWalker (set_suppressedAttributes true super) nameResolver
             (_suppressAttributes subwalker)
  end.

(** The [suppressedAttributes] flags of the walker and its sub-walkers. *)
Fixpoint suppressed_flags (w : Walker) : list bool :=
  match w with
  | EmptyWalker super _ _ => [suppressedAttributes super]
  | ValueWalker super _ _ _ _ _ => [suppressedAttributes super]
  | DefineWalker super _ subwalker =>
      suppressedAttributes super :: suppressed_flags subwalker
  end.

(** The flags of the [SingleSubwalker]s above the leaf walker. *)
Fixpoint SingleSubwalker_flags (w : Walker) : list bool :=
  match w with
  | DefineWalker super _ subwalker =>
      suppressedAttributes super :: SingleSubwalker_flags subwalker
  | _ => []
  end.

(** [end(attribute)]: [Walker.end] answers [false], which [EmptyWalker]
    keeps; [ValueWalker] overrides it; [SingleSubwalker.end] is the
    sub-walker's. *)
Fixpoint Walker_end (w : Walker) : Res EndResult :=
  match w with
  | EmptyWalker _ _ _ => Return EndOk
  | ValueWalker _ _ _ _ _ _ => ValueWalker_end w
  | DefineWalker _ _ subwalker => Walker_end subwalker
  end.

(** The pattern under the [Define] nodes at the top of a pattern, and the
    number of those nodes. *)
Fixpoint Define_body (p : Pattern) : Pattern :=
  match p with
  | Define _ _ pat => Define_body pat
  | _ => p
  end.

Fixpoint Define_depth (p : Pattern) : nat :=
  match p with
  | Define _ _ pat => S (Define_depth pat)
  | _ => 0
  end.

(** A string without a comma. *)
Definition comma_free (s : jsstring) : Prop := 44%N ∉ s.

(** The event cache as the constructor keeps it: an event is filed under
    the join of its parameters, which is its [key]; its identifier has been
    drawn from the counter, and no two cached events have one identifier. *)
Definition Event_cache_ok (h : Heap) : Prop :=
  (forall key ev,
      Event__cache h !! key = Some ev ->
      Event_key ev = key /\ join (Event_params ev) = key
      /\ Event_id ev < Event__id h)
  /\ (forall key1 ev1 key2 ev2,
        Event__cache h !! key1 = Some ev1 ->
        Event__cache h !! key2 = Some ev2 ->
        Event_id ev1 = Event_id ev2 -> key1 = key2).

(** The name resolvers a walker and its sub-walkers hold are objects of the
    store, and the context of a Value walker is on its name resolver. *)
Fixpoint resolvers_live (w : Walker) (h : Heap) : Prop :=
  match w with
  | EmptyWalker _ _ _ => True
  | ValueWalker _ _ context nameResolver _ _ =>
      is_Some (NameResolvers h !! nameResolver)
      /\ (context = None \/ context = Some nameResolver)
  | DefineWalker _ nameResolver subwalker =>
      is_Some (NameResolvers h !! nameResolver)
      /\ resolvers_live subwalker h
  end.

(** Two walkers in the same state of matching: the same classes along the
    chain and, for the Value walkers, the same pattern, the same progress
    and contexts with the same content. *)
Fixpoint same_state (w c : Walker) (h : Heap) : Prop :=
  match w, c with
  | EmptyWalker _ _ _, EmptyWalker _ _ _ => True
  | ValueWalker super matched context _ canEnd canEndAttribute,
    ValueWalker super' matched' context' _ canEnd' canEndAttribute' =>
      el super = el super' /\ matched = matched' /\ canEnd = canEnd'
      /\ canEndAttribute = canEndAttribute'
      /\ read_context context h = read_context context' h
      /\ (forall l, context = Some l -> is_Some (NameResolvers h !! l))
      /\ (forall l, context' = Some l -> is_Some (NameResolvers h !! l))
  | DefineWalker _ _ subwalker, DefineWalker _ _ subwalker' =>
      same_state subwalker subwalker' h
  | _, _ => False
  end.

(** The walker at the end of a chain of sub-walkers. *)
Fixpoint Walker_leaf (w : Walker) : Walker :=
  match w with
  | DefineWalker _ _ subwalker => Walker_leaf subwalker
  | _ => w
  end.

(** * Properties *)

Ltac munfold :=
  unfold bind, ret, throw, lift, get_heap in *.

(** A call with one argument answers [NoMatch] or throws a [TypeError]: it
    throws when the argument is the string ["text"] and the walker at the
    end of the chain is not a matched Value walker.  Neither the walker nor
    the store changes. *)
Lemma SingleSubwalker_fireEvent_spec (w : Walker) (arg : FireArg) (h : Heap) :
  SingleSubwalker_fireEvent w arg h
  = (if FireArg_is_text arg
        && negb (default false (Walker_matched (Walker_leaf w)))
     then Throw TypeError else Return (NoMatch, w), h).
Proof.
  induction w as [super ce cea|super matched context nr ce cea|super nr sub IH];
    cbn [SingleSubwalker_fireEvent Walker_leaf Walker_matched default].
  - by destruct (FireArg_is_text arg).
  - by destruct matched, (FireArg_is_text arg).
  - unfold bind, ret. rewrite IH.
    by destruct (FireArg_is_text arg && _).
Qed.

Lemma fireEvent_DefineWalker (w : Walker) (name : jsstring)
    (params : list jsstring) (h : Heap) :
  (exists super nameResolver subwalker,
      w = DefineWalker super nameResolver subwalker) ->
  fireEvent w name params h
  = (if bool_decide (name = js "text")
        && negb (default false (Walker_matched (Walker_leaf w)))
     then Throw TypeError else Return (NoMatch, w), h).
Proof.
  intros (super & nr & sub & ->). unfold fireEvent.
  by rewrite SingleSubwalker_fireEvent_spec.
Qed.

Lemma test_S_false (s : jsstring) :
  test_S s = false <-> Forall (fun c => is_whitespace c = true) s.
Proof.
  unfold test_S. induction s as [|c s IH]; simpl.
  - split; [constructor | reflexivity].
  - rewrite orb_false_iff, IH, negb_false_iff. split.
    + intros [Hc Hs]. by constructor.
    + intros H. inversion H; subst. by split.
Qed.

(** C2.  The Empty walker answers [Ok] exactly to a ["text"] event whose
    value has no character other than white space (the empty string
    included), answers [NoMatch] to every other event, and never answers
    with validation errors. *)
Theorem EmptyWalker_fireEvent_spec (name : jsstring) (params : list jsstring) :
  (EmptyWalker_fireEvent name params = Ok <->
     name = js "text" /\
     exists v, params !! 0 = Some v /\ Forall (fun c => is_whitespace c = true) v)
  /\ (EmptyWalker_fireEvent name params <> Ok ->
      EmptyWalker_fireEvent name params = NoMatch)
  /\ (forall errs, EmptyWalker_fireEvent name params <> Errors errs).
Proof.
  unfold EmptyWalker_fireEvent. split; [|split].
  - destruct (bool_decide_reflect (name = js "text")) as [Hn|Hn]; simpl.
    + destruct (params !! 0) as [v|] eqn:Hp; simpl.
      * unfold test_S_arg; simpl.
        destruct (test_S v) eqn:Hv; simpl.
        -- split; [discriminate|]. intros [_ (v' & Hv' & Hall)].
           injection Hv' as <-. apply test_S_false in Hall. congruence.
        -- split; [|done]. intros _. split; [done|].
           exists v. split; [done|]. by apply test_S_false.
      * split; [discriminate|]. by intros [_ (v & Hv & _)].
    + split; [discriminate|]. by intros [? _].
  - by destruct (_ && _).
  - intros errs. by destruct (_ && _).
Qed.

(** White space, the empty string and a no-break space match; a letter, a
    missing value and other events do not. *)
Example EmptyWalker_fireEvent_examples :
  EmptyWalker_fireEvent (js "text") [[32; 10; 9]%N] = Ok
  /\ EmptyWalker_fireEvent (js "text") [[]] = Ok
  /\ EmptyWalker_fireEvent (js "text") [[160; 8232]%N] = Ok
  /\ EmptyWalker_fireEvent (js "text") [js " a "] = NoMatch
  /\ EmptyWalker_fireEvent (js "text") [] = NoMatch
  /\ EmptyWalker_fireEvent (js "leaveStartTag") [] = NoMatch
  /\ EmptyWalker_fireEvent (js "attributeValue") [js " "] = NoMatch.
Proof. repeat split. Qed.

(** ** Event interning *)

Lemma Event_new_twice (a b : EventArgs) (h : Heap) :
  join (EventArgs_params a) = join (EventArgs_params b) ->
  Event_new b (Event_new a h).2 = Event_new a h.
Proof.
  intros Hk. unfold Event_new. rewrite <- Hk.
  destruct (Event__cache h !! join (EventArgs_params a)) as [e|] eqn:Hc; simpl.
  - by rewrite Hc.
  - by rewrite lookup_insert_eq.
Qed.

(** C10.  Interning is keyed by the comma-join of the parameters: the lists
    [["a,b"]] and [["a"; "b"]] differ and have the same key; in every store
    the second construction returns the very object of the first and leaves
    the store as it was; from the store of the loaded modules that object
    has the parameters of whichever list was constructed first. *)
Theorem Event_interning_collision :
  exists p q : list jsstring,
    p <> q /\ join p = join q /\
    (forall h, Event_new (Spread q) (Event_new (Spread p) h).2
               = Event_new (Spread p) h) /\
    (forall h, Event_new (Spread p) (Event_new (Spread q) h).2
               = Event_new (Spread q) h) /\
    (exists e h1, Event_new (Spread p) initial_heap = (Return e, h1) /\
                  Event_new (Spread q) h1 = (Return e, h1) /\
                  Event_params e = p) /\
    (exists e h1, Event_new (Spread q) initial_heap = (Return e, h1) /\
                  Event_new (Spread p) h1 = (Return e, h1) /\
                  Event_params e = q).
Proof.
  exists [js "a,b"], [js "a"; js "b"].
  split; [discriminate|]. split; [reflexivity|].
  split; [|split; [|split]].
  - intros h. by apply Event_new_twice.
  - intros h. by apply Event_new_twice.
  - eexists _, _. split; [reflexivity|]. split; [|reflexivity].
    pose proof (Event_new_twice (Spread [js "a,b"]) (Spread [js "a"; js "b"])
                  initial_heap eq_refl) as H.
    exact H.
  - eexists _, _. split; [reflexivity|]. split; [|reflexivity].
    pose proof (Event_new_twice (Spread [js "a"; js "b"]) (Spread [js "a,b"])
                  initial_heap eq_refl) as H.
    exact H.
Qed.

(** ** Resolution of references *)

Lemma set_Ref_resolvesTo_twice (m1 m2 : gmap nat Pattern) (h : Heap) :
  set_Ref_resolvesTo m2 (set_Ref_resolvesTo m1 h) = set_Ref_resolvesTo m2 h.
Proof. reflexivity. Qed.

Lemma set_Ref_resolvesTo_same (h : Heap) :
  set_Ref_resolvesTo (Ref_resolvesTo h) h = h.
Proof. by destruct h. Qed.

Lemma unresolved_TwoSubpatterns definitions (b : BasePattern)
    (patA patB : Pattern) :
  unresolved definitions (TwoSubpatterns b patA patB)
  = unresolved definitions patA ++ unresolved definitions patB.
Proof. unfold unresolved. simpl. by rewrite filter_app, fmap_app. Qed.

(** What [_resolve] returns on a [Ref], and what it assigns. *)
Lemma _resolve_Ref definitions (b : BasePattern) (name : jsstring) (h : Heap) :
  exists h',
    _resolve definitions (Ref b name) h
    = (Return (match definitions !! name with
               | Some _ => None
               | None => Some [Ref b name]
               end), h')
    /\ Ref_resolvesTo h' !! id b = definitions !! name.
Proof.
  simpl. destruct (definitions !! name) as [d|] eqn:Hd.
  - eexists. split; [reflexivity|]. simpl. by rewrite lookup_insert_eq.
  - eexists. split; [reflexivity|]. simpl. by rewrite lookup_delete_eq.
Qed.

Lemma _resolve_correct definitions (p : Pattern) (h : Heap) :
  exists m,
    _resolve definitions p h
    = (Return (or_undefined (unresolved definitions p)),
       set_Ref_resolvesTo m h)
    /\ (forall i, i ∉ (fun r => id r.1) <$> refs p ->
                  m !! i = Ref_resolvesTo h !! i)
    /\ (refs_coherent p ->
        forall b n, (b, n) ∈ refs p -> m !! id b = definitions !! n).
Proof.
  revert h. induction p as [b|v|b name|b name pat IH|b patA IHA patB IHB];
    intros h.
  - exists (Ref_resolvesTo h). simpl. rewrite set_Ref_resolvesTo_same.
    split; [done|]. split; [done|]. intros _ b' n Hin. by apply elem_of_nil in Hin.
  - exists (Ref_resolvesTo h). simpl. rewrite set_Ref_resolvesTo_same.
    split; [done|]. split; [done|]. intros _ b' n Hin. by apply elem_of_nil in Hin.
  - simpl. unfold unresolved. simpl.
    destruct (definitions !! name) as [d|] eqn:Hd.
    + exists (<[id b := d]> (Ref_resolvesTo h)).
      rewrite filter_cons_False by (simpl; congruence).
      split; [done|]. split.
      * intros i Hi. apply lookup_insert_ne. intros <-. apply Hi.
        simpl. apply list_elem_of_singleton. done.
      * intros _ b' n Hin. apply list_elem_of_singleton in Hin.
        injection Hin as -> ->. by rewrite lookup_insert_eq.
    + exists (delete (id b) (Ref_resolvesTo h)).
      rewrite filter_cons_True by done.
      split; [done|]. split.
      * intros i Hi. apply lookup_delete_ne. intros <-. apply Hi.
        simpl. apply list_elem_of_singleton. done.
      * intros _ b' n Hin. apply list_elem_of_singleton in Hin.
        injection Hin as -> ->. by rewrite lookup_delete_eq.
  - destruct (IH h) as (m & Hr & Hframe & Hbind). exists m. simpl.
    split; [exact Hr|]. split; [exact Hframe|exact Hbind].
  - destruct (IHA h) as (m1 & Hr1 & Hframe1 & Hbind1).
    destruct (IHB (set_Ref_resolvesTo m1 h)) as (m2 & Hr2 & Hframe2 & Hbind2).
    rewrite set_Ref_resolvesTo_twice in Hr2. simpl in Hframe2.
    exists m2. split; [|split].
    + cbn [_resolve]. munfold. rewrite Hr1, Hr2.
      rewrite unresolved_TwoSubpatterns.
      destruct (unresolved definitions patA) as [|x a],
               (unresolved definitions patB) as [|y c]; simpl; try done.
      by rewrite app_nil_r.
    + intros i Hi. simpl in Hi. rewrite fmap_app in Hi.
      rewrite Hframe2, Hframe1; [done| |];
        intros Hin; apply Hi, elem_of_app; auto.
    + intros Hcoh b' n Hin. simpl in Hin. apply elem_of_app in Hin.
      assert (refs_coherent patA) as HcohA.
      { intros b1 n1 b2 n2 H1 H2. apply Hcoh; simpl; apply elem_of_app; auto. }
      assert (refs_coherent patB) as HcohB.
      { intros b1 n1 b2 n2 H1 H2. apply Hcoh; simpl; apply elem_of_app; auto. }
      destruct (decide (id b' ∈ (fun r => id r.1) <$> refs patB)) as [HB|HB].
      * apply list_elem_of_fmap in HB as ([b2 n2] & Hid & HinB). simpl in Hid.
        rewrite Hid. rewrite (Hbind2 HcohB b2 n2 HinB).
        f_equal. symmetry.
        destruct Hin as [HinA|HinB'].
        -- apply (Hcoh b' n b2 n2); simpl; [apply elem_of_app; auto..|done].
        -- apply (Hcoh b' n b2 n2); simpl; [apply elem_of_app; auto..|done].
      * destruct Hin as [HinA|HinB'].
        -- rewrite Hframe2 by done. by apply Hbind1.
        -- exfalso. apply HB. apply list_elem_of_fmap. by exists (b', n).
Qed.

(** C5.  [_resolve] returns exactly the references of the tree that the
    definitions do not define, or [undefined] when there is none: a [Ref] is
    bound to the definition of its name and answers [undefined], or answers
    the list holding itself; a pattern with two children answers the
    concatenation of the lists of its children.  Only the [Ref] nodes of the
    tree itself are assigned: the pass does not enter what they resolve
    to. *)
Theorem _resolve_returns_unresolved (definitions : gmap jsstring Pattern)
    (p : Pattern) (h : Heap) (Hcoh : refs_coherent p) :
  exists h',
    _resolve definitions p h
    = (Return (or_undefined (unresolved definitions p)), h')
    /\ (forall b n, (b, n) ∈ refs p ->
          Ref_resolvesTo h' !! id b = definitions !! n)
    /\ (forall i, i ∉ (fun r => id r.1) <$> refs p ->
          Ref_resolvesTo h' !! i = Ref_resolvesTo h !! i)
    /\ (forall b name,
          (_resolve definitions (Ref b name) h).1
          = Return (match definitions !! name with
                    | Some _ => None
                    | None => Some [Ref b name]
                    end))
    /\ (forall b patA patB,
          (_resolve definitions (TwoSubpatterns b patA patB) h).1
          = Return (or_undefined (unresolved definitions patA
                                  ++ unresolved definitions patB))).
Proof.
  destruct (_resolve_correct definitions p h) as (m & Hr & Hframe & Hbind).
  exists (set_Ref_resolvesTo m h). split; [exact Hr|].
  split; [exact (Hbind Hcoh)|]. split; [exact Hframe|]. split.
  - intros b name.
    destruct (_resolve_Ref definitions b name h) as (h' & -> & _). done.
  - intros b patA patB.
    destruct (_resolve_correct definitions (TwoSubpatterns b patA patB) h)
      as (m' & -> & _).
    by rewrite unresolved_TwoSubpatterns.
Qed.

(** A reference to a definition whose body holds an undefined reference
    resolves: the body is not visited, and its reference is left as it
    was. *)
Example _resolve_stops_at_Ref :
  let inner := Ref (mkBasePattern 2 (js "/define/ref")) (js "missing") in
  let d := Define (mkBasePattern 3 (js "/define")) (js "a") inner in
  let definitions : gmap jsstring Pattern := {[ js "a" := d ]} in
  exists h',
    _resolve definitions (Ref (mkBasePattern 4 (js "/start/ref")) (js "a"))
      initial_heap = (Return None, h')
    /\ Ref_resolvesTo h' !! 4 = Some d
    /\ Ref_resolvesTo h' !! 2 = Ref_resolvesTo initial_heap !! 2
    /\ (_resolve definitions d initial_heap).1 = Return (Some [inner]).
Proof. simpl. eexists. repeat split. Qed.

(** The witness: a tree with a defined and an undefined reference. *)
Lemma _resolve_returns_unresolved_witness :
  let missing := Ref (mkBasePattern 2 (js "/g/ref[2]")) (js "missing") in
  let p := TwoSubpatterns (mkBasePattern 3 (js "/g"))
             (Ref (mkBasePattern 1 (js "/g/ref[1]")) (js "a")) missing in
  let d := Define (mkBasePattern 4 (js "/define")) (js "a")
             (Empty (mkBasePattern 5 (js "/define/empty"))) in
  refs_coherent p /\
  exists h',
    _resolve {[ js "a" := d ]} p initial_heap = (Return (Some [missing]), h')
    /\ Ref_resolvesTo h' !! 1 = Some d /\ Ref_resolvesTo h' !! 2 = None.
Proof.
  intros missing p d.
  assert (refs_coherent p) as Hcoh.
  { intros b1 n1 b2 n2 H1 H2 Hid. simpl in H1, H2.
    rewrite !elem_of_cons in H1, H2.
    destruct H1 as [H1|[H1|H1]]; [| |by apply elem_of_nil in H1];
      destruct H2 as [H2|[H2|H2]]; try (by apply elem_of_nil in H2);
      injection H1 as -> ->; injection H2 as -> ->;
      first [reflexivity | discriminate Hid]. }
  split; [exact Hcoh|].
  destruct (_resolve_returns_unresolved {[ js "a" := d ]} p initial_heap Hcoh)
    as (h' & Hr & Hbind & _).
  exists h'. split; [exact Hr|]. split.
  - apply (Hbind (mkBasePattern 1 (js "/g/ref[1]")) (js "a")).
    simpl. apply elem_of_cons. by left.
  - apply (Hbind (mkBasePattern 2 (js "/g/ref[2]")) (js "missing")).
    simpl. apply elem_of_cons. right. by apply list_elem_of_singleton.
Defined.

(** ** Walkers of references *)

Lemma newWalker_mono (fuel fuel' : nat) (p : Pattern) (r : nat) (h : Heap)
    (res : Res Walker * Heap) :
  fuel <= fuel' ->
  newWalker fuel p r h = Some res -> newWalker fuel' p r h = Some res.
Proof.
  revert fuel' p h res.
  induction fuel as [|fuel IH]; intros fuel' p h res Hle Hn; [discriminate|].
  destruct fuel' as [|fuel']; [lia|]. apply le_S_n in Hle.
  destruct p as [b|v|b name|b name pat|b patA patB]; simpl in *; try exact Hn.
  - destruct (Ref_resolvesTo h !! id b) as [d|]; [|exact Hn].
    destruct (Pattern_pat d) as [pat|]; [|exact Hn].
    by apply IH.
  - destruct (newWalker fuel pat r _) as [res1|] eqn:Hsub; [|discriminate].
    by rewrite (IH fuel' pat _ res1 Hle Hsub).
Qed.

Lemma newWalker_deterministic (f1 f2 : nat) (p : Pattern) (r : nat)
    (h : Heap) (res1 res2 : Res Walker * Heap) :
  newWalker f1 p r h = Some res1 -> newWalker f2 p r h = Some res2 ->
  res1 = res2.
Proof.
  intros H1 H2.
  apply (newWalker_mono f1 (f1 `max` f2)) in H1; [|lia].
  apply (newWalker_mono f2 (f1 `max` f2)) in H2; [|lia].
  congruence.
Qed.

(** No walker observes a [Ref]. *)
Lemma newWalker_el_not_Ref (fuel : nat) (p : Pattern) (r : nat) (h h' : Heap)
    (w : Walker) :
  newWalker fuel p r h = Some (Return w, h') ->
  forall b name, Walker_el w <> Ref b name.
Proof.
  revert p h h' w.
  induction fuel as [|fuel IH]; intros p h h' w Hn b' name'; [discriminate|].
  destruct p as [b|v|b name|b name pat|b patA patB]; simpl in Hn.
  - injection Hn as <- <-. discriminate.
  - injection Hn as <- <-. discriminate.
  - destruct (Ref_resolvesTo h !! id b) as [d|]; [|discriminate].
    destruct (Pattern_pat d) as [pat|]; [|discriminate].
    by eapply IH.
  - munfold. simpl in Hn.
    destruct (newWalker fuel pat r _) as [[[sub|e] h2]|]; try discriminate.
    injection Hn as <- <-. discriminate.
  - discriminate.
Qed.

(** C6.  The walker of a resolved [Ref] is the walker of the body of the
    definition it resolves to: [Ref.newWalker] is that call, it returns
    whenever and whatever that call returns, with the same store (no other
    walker is made), the walker observes no [Ref], and every sequence of
    events has the same results on both. *)
Theorem Ref_newWalker_is_body (b : BasePattern) (name : jsstring)
    (d pat : Pattern) (r : nat) (h : Heap)
    (Hresolved : Ref_resolvesTo h !! id b = Some d)
    (Hpat : Pattern_pat d = Some pat) :
  (forall fuel, newWalker (S fuel) (Ref b name) r h = newWalker fuel pat r h)
  /\ (forall res, (exists fuel, newWalker fuel (Ref b name) r h = Some res)
                  <-> (exists fuel, newWalker fuel pat r h = Some res))
  /\ (forall f1 f2 w1 h1 w2 h2,
        newWalker f1 (Ref b name) r h = Some (Return w1, h1) ->
        newWalker f2 pat r h = Some (Return w2, h2) ->
        w1 = w2 /\ h1 = h2 /\
        (forall b' name', Walker_el w1 <> Ref b' name') /\
        forall evs, fireEvents w1 evs h1 = fireEvents w2 evs h2).
Proof.
  assert (forall fuel,
             newWalker (S fuel) (Ref b name) r h = newWalker fuel pat r h)
    as Hstep.
  { intros fuel. simpl. by rewrite Hresolved, Hpat. }
  split; [exact Hstep|]. split.
  - intros res. split; intros [fuel Hn].
    + destruct fuel as [|fuel]; [discriminate|].
      exists fuel. by rewrite <- Hstep.
    + exists (S fuel). by rewrite Hstep.
  - intros f1 f2 w1 h1 w2 h2 H1 H2.
    destruct f1 as [|f1]; [discriminate|].
    pose proof H1 as H1'. rewrite Hstep in H1'.
    pose proof (newWalker_deterministic _ _ _ _ _ _ _ H1' H2) as Heq.
    injection Heq as -> ->.
    repeat split. intros b' name'. by eapply newWalker_el_not_Ref.
Qed.

(** The witness: a reference resolved to a definition of [value "x"]. *)
Lemma Ref_newWalker_is_body_witness :
  let b := mkBasePattern 4 (js "/start/ref") in
  let d := Define (mkBasePattern 3 (js "/define")) (js "a") (ValueP token_x) in
  let h := (_resolve {[ js "a" := d ]} (Ref b (js "a")) document_heap).2 in
  Ref_resolvesTo h !! id b = Some d /\
  Pattern_pat d = Some (ValueP token_x) /\
  newWalker 2 (Ref b (js "a")) 0 h = newWalker 1 (ValueP token_x) 0 h /\
  exists w h1, newWalker 2 (Ref b (js "a")) 0 h = Some (Return w, h1)
               /\ Walker_el w = ValueP token_x.
Proof.
  intros b d h.
  split; [reflexivity|]. split; [reflexivity|].
  destruct (Ref_newWalker_is_body b (js "a") d (ValueP token_x) 0 h
              eq_refl eq_refl) as (Hstep & _ & _).
  split; [exact (Hstep 1)|].
  eexists _, _. split; reflexivity.
Defined.

(** ** The pattern a walker observes *)

Lemma _clone_el (w : Walker) (memo : Memo) (h : Heap) (w' : Walker)
    (memo' : Memo) (h' : Heap) :
  _clone w memo h = (Return (w', memo'), h') -> Walker_el w' = Walker_el w.
Proof.
  destruct w as [super ce cea|super matched context nr ce cea|super nr sub];
    simpl; munfold; simpl.
  - intros H. by injection H as <- _ _.
  - destruct (_cloneIfNeeded nr memo _) as [[[nr' m']|e] h1];
      intros H; [|discriminate]. by injection H as <- _ _.
  - destruct (_cloneIfNeeded nr memo _) as [[[nr' m']|e] h1];
      [|discriminate].
    destruct (_clone sub m' h1) as [[[sub' m'']|e] h2];
      intros H; [|discriminate]. by injection H as <- _ _.
Qed.

(** C9, as the code has it.  The walker of an [Empty], a [Value] or a
    [Define] observes the very pattern whose [newWalker] made it; the walker
    of a [Ref] is the one the body of its definition makes, and it does not
    observe the [Ref]; [TwoSubpatterns] makes none.  Copies observe what
    their original observes. *)
Theorem newWalker_el (fuel : nat) (p : Pattern) (r : nat) (h h' : Heap)
    (w : Walker) (Hnew : newWalker fuel p r h = Some (Return w, h')) :
  match p with
  | Empty _ | ValueP _ | Define _ _ _ => Walker_el w = p
  | Ref b _ =>
      Walker_el w <> p
      /\ exists d pat fuel',
           Ref_resolvesTo h !! id b = Some d /\ Pattern_pat d = Some pat /\
           newWalker fuel' pat r h = Some (Return w, h')
  | TwoSubpatterns _ _ _ => False
  end
  /\ (forall memo h1 w' memo' h2,
        _clone w memo h1 = (Return (w', memo'), h2) ->
        Walker_el w' = Walker_el w).
Proof.
  split; [|intros memo h1 w' memo' h2; apply _clone_el].
  pose proof (newWalker_el_not_Ref _ _ _ _ _ _ Hnew) as Hnot.
  destruct fuel as [|fuel]; [discriminate|].
  destruct p as [b|v|b name|b name pat|b patA patB]; simpl in Hnew.
  - munfold. simpl in Hnew. injection Hnew as <- <-. done.
  - injection Hnew as <- <-. done.
  - split; [apply Hnot|].
    destruct (Ref_resolvesTo h !! id b) as [d|]; [|discriminate].
    destruct (Pattern_pat d) as [pat|] eqn:Hpat; [|discriminate].
    by exists d, pat, fuel.
  - munfold. simpl in Hnew.
    destruct (newWalker fuel pat r _) as [[[sub|e] h2]|]; try discriminate.
    injection Hnew as <- <-. done.
  - discriminate.
Qed.

Lemma newWalker_el_witness :
  exists w h',
    newWalker 1 (ValueP token_x) 0 document_heap = Some (Return w, h')
    /\ Walker_el w = ValueP token_x.
Proof.
  eexists _, _. split; [reflexivity|].
  exact (proj1 (newWalker_el 1 (ValueP token_x) 0 document_heap _ _ eq_refl)).
Defined.

(** The walker of a [Ref] of a schema does not observe that [Ref], but the
    pattern in the body of the definition. *)
Lemma newWalker_Ref_el_differs :
  let ref := Ref (mkBasePattern 4 (js "/start/ref")) (js "a") in
  let d := Define (mkBasePattern 3 (js "/define")) (js "a") (ValueP token_x) in
  let h := (_resolve {[ js "a" := d ]} ref document_heap).2 in
  exists w h',
    newWalker 2 ref 0 h = Some (Return w, h')
    /\ Walker_el w = ValueP token_x
    /\ Walker_el w <> ref.
Proof.
  intros ref d h. eexists _, _. split; [reflexivity|].
  split; [reflexivity|discriminate].
Qed.

(** The walker of an [Empty] pattern of a schema is a new walker on that
    pattern, and not the singleton. *)
Example newWalker_Empty_el :
  exists w h',
    newWalker 1 (Empty (mkBasePattern 1 (js "/element/empty"))) 0
      document_heap = Some (Return w, h')
    /\ Walker_el w = Empty (mkBasePattern 1 (js "/element/empty"))
    /\ w <> singleton
    /\ Walker__id h' = S (Walker__id document_heap).
Proof.
  eexists _, _. split; [reflexivity|]. split; [reflexivity|].
  split; [discriminate|reflexivity].
Qed.

(** The store and singleton are what loading the modules leaves, and the
    example patterns are what the constructors make there. *)
Example load_modules_singleton :
  load_modules empty_heap = (Return singleton, initial_heap).
Proof. reflexivity. Qed.

Example Empty_new_after_load :
  (Empty_new (js "/element/empty") initial_heap).1
  = Return (Empty (mkBasePattern 1 (js "/element/empty"))).
Proof. reflexivity. Qed.

Example Value_new_token_x :
  (Value_new example_registry (js "/element/value") (js "x") None None None
     initial_heap).1 = Return token_x.
Proof. reflexivity. Qed.

Example Value_new_qname_foo :
  (Value_new example_registry (js "/element/value") (js "foo")
     (Some (js "QName")) (Some (js "xsd")) (Some (js "http://a"))
     initial_heap).1 = Return qname_foo.
Proof. reflexivity. Qed.

(** ** The stored value of a [Value] *)

Lemma Value_value_unset (el : Value) (h : Heap) :
  value_unset el h ->
  exists h',
    Value_value el h
    = (parseValue (datatype el) (xmlPath (Value_super el)) (rawValue el)
         (schema_context el), h')
    /\ match parseValue (datatype el) (xmlPath (Value_super el)) (rawValue el)
               (schema_context el) with
       | Return v => Value__value h' !! id (Value_super el) = Some v
       | Throw _ => Value__value h' = Value__value h
       end
    /\ EventSets h' = EventSets h /\ Event__cache h' = Event__cache h
    /\ Event__id h' = Event__id h /\ Walker__id h' = Walker__id h
    /\ (forall l, is_Some (NameResolvers h !! l) ->
                  NameResolvers h' !! l = NameResolvers h !! l).
Proof.
  intros Hunset. unfold value_unset in Hunset.
  unfold Value_value, schema_context. munfold. rewrite Hunset.
  destruct (needsContext (datatype el)); simpl.
  - unfold read_NameResolver. simpl. rewrite !lookup_insert_eq. simpl.
    destruct (parseValue _ _ _ _) as [v|e]; simpl.
    + eexists. split; [reflexivity|]. simpl. rewrite lookup_insert_eq.
      repeat split. intros l Hl. rewrite insert_insert_eq.
      apply lookup_insert_ne. intros <-.
      apply elem_of_dom in Hl. by apply is_fresh in Hl.
    + eexists. split; [reflexivity|]. simpl.
      repeat split. intros l Hl. rewrite insert_insert_eq.
      apply lookup_insert_ne. intros <-.
      apply elem_of_dom in Hl. by apply is_fresh in Hl.
  - destruct (parseValue _ _ _ _) as [v|e]; simpl.
    + eexists. split; [reflexivity|]. simpl. rewrite lookup_insert_eq.
      by repeat split.
    + eexists. split; [reflexivity|]. by repeat split.
Qed.

Lemma Value_value_set (el : Value) (h : Heap) (v : any) :
  Value__value h !! id (Value_super el) = Some v -> not_nullish v = true ->
  Value_value el h = (Return v, h).
Proof.
  intros Hv Hnn. unfold Value_value. munfold. rewrite Hv. simpl.
  by rewrite Hnn.
Qed.

(** C3, as the code has it.  The constructor looks the datatype up and
    stores the raw form: it computes no value, and succeeds whatever the raw
    form is.  The value is computed by the first read of [value], by
    [parseValue] under a resolver whose default prefix is the declared
    namespace when the datatype needs a context, and kept; an invalid raw
    form is thrown by that read, which the first ["text"] event fired on an
    unmatched walker performs. *)
Theorem Value_parses_on_first_read (registry : Registry)
    (path value : jsstring) (ty lib namespace : option jsstring)
    (h h' : Heap) (el : Value)
    (Hnew : Value_new registry path value ty lib namespace h = (Return el, h')) :
  rawValue el = value
  /\ Value__value h' = Value__value h
  /\ (forall value2, exists el2,
        Value_new registry path value2 ty lib namespace h = (Return el2, h')
        /\ rawValue el2 = value2 /\ datatype el2 = datatype el)
  /\ (forall h1, value_unset el h1 ->
        exists h2,
          Value_value el h1
          = (parseValue (datatype el) path value (schema_context el), h2)
          /\ match parseValue (datatype el) path value (schema_context el) with
             | Return v => Value__value h2 !! id (Value_super el) = Some v
             | Throw _ => Value__value h2 = Value__value h1
             end)
  /\ (forall h1 v, Value__value h1 !! id (Value_super el) = Some v ->
        not_nullish v = true -> Value_value el h1 = (Return v, h1))
  /\ (forall h1 r e params w h2,
        value_unset el h1 ->
        parseValue (datatype el) path value (schema_context el) = Throw e ->
        newWalker 1 (ValueP el) r h1 = Some (Return w, h2) ->
        (fireEvent w (js "text") params h2).1 = Throw e).
Proof.
  unfold Value_new in Hnew. munfold. simpl in Hnew.
  destruct (registry (default [] lib)) as [types|e] eqn:Hreg; [|discriminate].
  destruct (types (default (js "token") ty)) as [dt|] eqn:Hty; [|discriminate].
  injection Hnew as <- <-.
  split; [done|]. split; [done|]. split; [|split; [|split]].
  - intros value2. eexists. unfold Value_new. munfold. simpl.
    rewrite Hreg, Hty. done.
  - intros h1 Hunset.
    destruct (Value_value_unset _ h1 Hunset) as (h2 & Hv & Hst & _).
    exists h2. split; [exact Hv|exact Hst].
  - intros h1 v. exact (Value_value_set _ h1 v).
  - intros h1 r e params w h2 Hunset Hparse Hw. simpl in Hw.
    injection Hw as <- <-. simpl. munfold. simpl.
    match goal with |- context [Value_value ?el ?hh] =>
      destruct (Value_value_unset el hh) as (h3 & Hv & _); [exact Hunset|];
      rewrite Hv end.
    simpl in Hparse. simpl. by rewrite Hparse.
Qed.

(** The witness: [value "p:x"] of type [QName] is constructed although no
    prefix [p] is declared, and the first ["text"] event throws. *)
Lemma Value_parses_on_first_read_witness :
  exists h' w h2 e,
    Value_new example_registry (js "/element/value") (js "p:x")
      (Some (js "QName")) (Some (js "xsd")) (Some (js "http://a")) initial_heap
    = (Return qname_p_x, h')
    /\ Value__value h' = Value__value initial_heap
    /\ newWalker 1 (ValueP qname_p_x) 0 document_heap = Some (Return w, h2)
    /\ (fireEvent w (js "text") [js "p:x"] h2).1 = Throw e.
Proof.
  eexists _, _, _, _.
  pose proof (Value_parses_on_first_read example_registry
                (js "/element/value") (js "p:x") (Some (js "QName"))
                (Some (js "xsd")) (Some (js "http://a")) initial_heap _
                qname_p_x eq_refl) as (_ & Hst & _ & _ & _ & Hfire).
  split; [reflexivity|]. split; [exact Hst|]. split; [reflexivity|].
  eapply (Hfire document_heap 0); reflexivity.
Defined.

(** The constructor returns on an invalid raw form, with no value stored. *)
Lemma Value_new_does_not_parse :
  exists h',
    Value_new example_registry (js "/element/value") (js "p:x")
      (Some (js "QName")) (Some (js "xsd")) (Some (js "http://a")) initial_heap
    = (Return qname_p_x, h')
    /\ Value__value h' !! id (Value_super qname_p_x) = None
    /\ parseValue (datatype qname_p_x) (xmlPath (Value_super qname_p_x))
         (rawValue qname_p_x) (schema_context qname_p_x)
       = Throw (Error (js "cannot resolve the name p:x")).
Proof. eexists. repeat split. Qed.

(** ** The Value walker *)

(** When [fireEvent] answers [Ok]. *)
Lemma ValueWalker_fireEvent_Ok (super : WalkerBase Value)
    (context : option nat) (nameResolver : nat)
    (matched canEnd canEndAttribute : bool)
    (name : jsstring) (params : list jsstring) (h h' : Heap) (w' : Walker) :
  fireEvent (ValueWalker super matched context nameResolver canEnd
               canEndAttribute) name params h
  = (Return (Ok, w'), h')
  <-> matched = false /\ name = js "text" /\
      w' = ValueWalker (set_possibleCached None super) true context
             nameResolver true true /\
      exists value,
        Value_value (el super) h = (Return value, h') /\
        equal (datatype (el super)) (params !! 0) value
          (read_context context h') = Return true.
Proof.
  simpl.
  destruct matched; simpl.
  { munfold. split; [discriminate|]. by intros [? _]. }
  destruct (bool_decide_reflect (name = js "text")) as [Hn|Hn]; simpl.
  2: { munfold. split; [discriminate|]. by intros (_ & ? & _). }
  munfold.
  destruct (Value_value (el super) h) as [[value|e] h1] eqn:Hv.
  2: { split; [discriminate|]. by intros (_ & _ & _ & v & [=] & _). }
  destruct (equal _ _ _ _) as [[|]|e] eqn:Heq; simpl.
  - split.
    + intros [= <- <-]. repeat split; try done. by exists value.
    + intros (_ & _ & -> & v & [= <- <-] & _). done.
  - split; [discriminate|].
    intros (_ & _ & _ & v & [= <- <-] & Heq'). congruence.
  - split; [discriminate|].
    intros (_ & _ & _ & v & [= <- <-] & Heq'). congruence.
Qed.

(** The three outcomes of [fireEvent], and the walker each leaves. *)
Lemma ValueWalker_fireEvent_cases (super : WalkerBase Value)
    (context : option nat) (nameResolver : nat)
    (matched canEnd canEndAttribute : bool)
    (name : jsstring) (params : list jsstring) (h : Heap) :
  let w := ValueWalker super matched context nameResolver canEnd
             canEndAttribute in
  (exists h', fireEvent w name params h = (Return (NoMatch, w), h'))
  \/ (exists e h', fireEvent w name params h = (Throw e, h'))
  \/ (exists h', matched = false /\
                 fireEvent w name params h
                 = (Return (Ok, ValueWalker (set_possibleCached None super)
                                  true context nameResolver true true), h')).
Proof.
  simpl.
  destruct matched; simpl; [left; by eexists|].
  destruct (bool_decide (name = js "text")); simpl; [|left; by eexists].
  munfold.
  destruct (Value_value (el super) h) as [[value|e] h1]; [|right; left; eauto].
  destruct (equal _ _ _ _) as [[|]|e]; simpl; eauto.
Qed.

(** A matched walker answers [NoMatch] to every event and stays as it is. *)
Lemma fireEvents_matched (super : WalkerBase Value) (context : option nat)
    (nameResolver : nat) (canEnd canEndAttribute : bool)
    (evs : list FiredEvent) (h : Heap) :
  fireEvents (ValueWalker super true context nameResolver canEnd
                canEndAttribute) evs h
  = ((fun _ => Return NoMatch) <$> evs,
     ValueWalker super true context nameResolver canEnd canEndAttribute, h).
Proof.
  induction evs as [|[name params] evs IH]; [done|].
  cbn [fireEvents]. simpl. munfold. by rewrite IH.
Qed.

Lemma fireEvents_unmatched (super : WalkerBase Value) (context : option nat)
    (nameResolver : nat) (canEnd canEndAttribute : bool)
    (evs : list FiredEvent) (h : Heap) :
  exists rs super' matched' canEnd' canEndAttribute' h',
    fireEvents (ValueWalker super false context nameResolver canEnd
                  canEndAttribute) evs h
    = (rs, ValueWalker super' matched' context nameResolver canEnd'
             canEndAttribute', h')
    /\ el super' = el super
    /\ (((Return Ok ∉ rs) /\ matched' = false /\ canEnd' = canEnd)
        \/ (exists l1 l2,
              rs = l1 ++ Return Ok :: l2 /\ (Return Ok ∉ l1) /\
              Forall (fun r => r = Return NoMatch) l2 /\
              matched' = true /\ canEnd' = true)).
Proof.
  revert h. induction evs as [|[name params] evs IH]; intros h.
  - exists [], super, false, canEnd, canEndAttribute, h.
    split; [done|]. split; [done|]. left. split; [|done]. apply not_elem_of_nil.
  - cbn [fireEvents].
    destruct (ValueWalker_fireEvent_cases super context nameResolver false
                canEnd canEndAttribute name params h)
      as [[h1 Hf]|[(e & h1 & Hf)|(h1 & _ & Hf)]]; rewrite Hf.
    + destruct (IH h1) as (rs & s' & m' & ce' & cea' & h' & Hr & Hel & Hcase).
      rewrite Hr. exists (Return NoMatch :: rs), s', m', ce', cea', h'.
      split; [done|]. split; [done|].
      destruct Hcase as [(Hno & -> & ->)|(l1 & l2 & -> & Hno & Hall & -> & ->)].
      * left. split; [|done]. apply not_elem_of_cons. split; [discriminate|done].
      * right. exists (Return NoMatch :: l1), l2. split; [done|].
        split; [|done]. apply not_elem_of_cons. split; [discriminate|done].
    + destruct (IH h1) as (rs & s' & m' & ce' & cea' & h' & Hr & Hel & Hcase).
      rewrite Hr. exists (Throw e :: rs), s', m', ce', cea', h'.
      split; [done|]. split; [done|].
      destruct Hcase as [(Hno & -> & ->)|(l1 & l2 & -> & Hno & Hall & -> & ->)].
      * left. split; [|done]. apply not_elem_of_cons. split; [discriminate|done].
      * right. exists (Throw e :: l1), l2. split; [done|].
        split; [|done]. apply not_elem_of_cons. split; [discriminate|done].
    + rewrite fireEvents_matched.
      exists (Return Ok :: ((fun _ => Return NoMatch) <$> evs)),
        (set_possibleCached None super), true, true, true, h1.
      split; [done|]. split; [done|]. right.
      exists [], ((fun _ => Return NoMatch) <$> evs). split; [done|].
      split; [apply not_elem_of_nil|]. split; [|done].
      apply Forall_fmap, Forall_true. done.
Qed.

(** C4.  A Value walker is single-shot.  On a new walker [fireEvent]
    answers [Ok] exactly to a ["text"] event whose value is equal, per the
    datatype, to the stored value, and leaves the walker matched; a matched
    walker answers [NoMatch] to every event.  Over a sequence of events fired
    on a new walker there is at most one [Ok], all answers after it are
    [NoMatch]; at the end [canEnd] holds exactly when the [Ok] occurred or
    the raw form is empty, and [end()] answers one error exactly when
    [canEnd] is false. *)
Theorem ValueWalker_single_shot (v : Value) (resolver : nat) (h0 : Heap)
    (evs : list FiredEvent) :
  exists w0 h1 rs w h,
    ValueWalker_new v resolver h0 = (Return w0, h1)
    /\ fireEvents w0 evs h1 = (rs, w, h)
    /\ (forall name params ha hb w',
          fireEvent w0 name params ha = (Return (Ok, w'), hb)
          <-> name = js "text" /\ w' = after_match w0 /\
              exists value,
                Value_value v ha = (Return value, hb) /\
                equal (datatype v) (params !! 0) value
                  (read_context
                     (if needsContext (datatype v) then Some resolver else None)
                     hb) = Return true)
    /\ (forall evs' hb,
          fireEvents (after_match w0) evs' hb
          = ((fun _ => Return NoMatch) <$> evs', after_match w0, hb))
    /\ (((Return Ok ∉ rs) /\ Walker_matched w = Some false)
        \/ (exists l1 l2,
              rs = l1 ++ Return Ok :: l2 /\ (Return Ok ∉ l1) /\
              Forall (fun r => r = Return NoMatch) l2 /\
              Walker_matched w = Some true))
    /\ (exists matched,
          Walker_matched w = Some matched /\
          Walker_canEnd w = Some (matched || bool_decide (rawValue v = [])) /\
          ValueWalker_end w
          = Return (if matched || bool_decide (rawValue v = []) then EndOk
                    else EndErrors
                           [mkValidationError
                              (js "value required: " ++ rawValue v)])).
Proof.
  unfold ValueWalker_new. munfold. simpl.
  set (super := mkWalkerBase (Walker__id h0) v None false).
  set (ctx := if needsContext (datatype v) then Some resolver else None).
  destruct (fireEvents_unmatched super ctx resolver (Value_hasEmptyPattern v)
              (Value_hasEmptyPattern v) evs
              (set_Walker__id (S (Walker__id h0)) h0))
    as (rs & s' & m' & ce' & cea' & h' & Hr & Hel & Hcase).
  eexists _, _, rs, _, h'. split; [reflexivity|]. split; [exact Hr|].
  split; [|split; [|split]].
  - intros name params ha hb w'.
    rewrite (ValueWalker_fireEvent_Ok super ctx resolver false).
    simpl. split.
    + intros (_ & Hn & Hw & value & Hv & Heq). eauto 6.
    + intros (Hn & Hw & value & Hv & Heq). eauto 7.
  - intros evs' hb. apply fireEvents_matched.
  - destruct Hcase as [(Hno & -> & ->)|(l1 & l2 & -> & Hno & Hall & -> & ->)].
    + left. done.
    + right. exists l1, l2. done.
  - exists m'. split; [done|]. simpl. rewrite Hel. simpl.
    destruct Hcase as [(Hno & -> & ->)|(l1 & l2 & -> & Hno & Hall & -> & ->)];
      unfold Value_hasEmptyPattern; simpl; done.
Qed.

(** [value "x"]: white space does not match, ["x"] does, and nothing
    matches after it. *)
Example ValueWalker_single_shot_run :
  exists w0 h1 w h,
    newWalker 1 (ValueP token_x) 0 document_heap = Some (Return w0, h1)
    /\ fireEvents w0 [(js "text", [js " "]); (js "text", [js "x"]);
                      (js "text", [js "x"]); (js "endTag", [[]; js "a"])] h1
       = ([Return NoMatch; Return Ok; Return NoMatch; Return NoMatch], w, h)
    /\ Walker_canEnd w0 = Some false /\ Walker_canEnd w = Some true
    /\ ValueWalker_end w0
       = Return (EndErrors [mkValidationError (js "value required: x")])
    /\ ValueWalker_end w = Return EndOk.
Proof. eexists _, _, _, _. repeat split. Qed.

(** ** Cloning through a memo *)

Lemma _cloneIfNeeded_spec (obj : nat) (memo : Memo) (h : Heap) :
  exists other memo1 h1,
    _cloneIfNeeded obj memo h = (Return (other, memo1), h1)
    /\ memo1 !! obj = Some other
    /\ memo ⊆ memo1
    /\ dom memo1 = dom memo ∪ {[obj]}
    /\ size (NameResolvers h1) + size memo = size (NameResolvers h) + size memo1
    /\ Walker__id h1 = Walker__id h
    /\ _cloneIfNeeded obj memo1 h1 = (Return (other, memo1), h1).
Proof.
  unfold _cloneIfNeeded.
  destruct (memo !! obj) as [other|] eqn:Hm.
  - exists other, memo, h. munfold. rewrite Hm.
    repeat split; try done.
    apply elem_of_dom_2 in Hm. set_solver.
  - unfold NameResolver_clone, new_NameResolver. munfold. simpl.
    eexists _, _, _. split; [reflexivity|]. simpl.
    rewrite lookup_insert_eq.
    split; [done|]. split; [by apply insert_subseteq|].
    split; [rewrite dom_insert_L; set_solver|].
    split; [|done].
    rewrite !map_size_insert_None; [lia|done|].
    apply not_elem_of_dom, is_fresh.
Qed.




(** ** Possibility sets are the caller's *)

Lemma mutate_EventSet_lookup_ne (s c : nat) (elements : list Event)
    (h : Heap) :
  c <> s -> read_EventSet c (mutate_EventSet s elements h) = read_EventSet c h.
Proof.
  intros Hne. unfold read_EventSet, mutate_EventSet. simpl.
  by rewrite lookup_insert_ne.
Qed.

Lemma new_EventSet_mutate (l : list Event) (s : nat) (elements : list Event)
    (h : Heap) :
  is_Some (EventSets h !! s) ->
  new_EventSet l (mutate_EventSet s elements h)
  = ((new_EventSet l h).1, mutate_EventSet s elements (new_EventSet l h).2).
Proof.
  intros Hs. unfold new_EventSet, mutate_EventSet, set_EventSets. simpl.
  assert (dom (<[s:=elements]> (EventSets h)) = dom (EventSets h)) as ->.
  { rewrite dom_insert_L. apply elem_of_dom in Hs. set_solver. }
  f_equal. f_equal. apply insert_insert_ne. intros <-.
  apply elem_of_dom in Hs. by apply is_fresh in Hs.
Qed.

Lemma new_EventSet_spec (l : list Event) (h : Heap) :
  exists s h1,
    new_EventSet l h = (Return s, h1)
    /\ EventSets h !! s = None
    /\ EventSets h1 = <[s := l]> (EventSets h).
Proof.
  unfold new_EventSet. eexists _, _. split; [reflexivity|]. simpl.
  split; [|done]. apply not_elem_of_dom, is_fresh.
Qed.

Lemma Event_new_mutate (args : EventArgs) (s : nat) (elements : list Event)
    (h : Heap) :
  Event_new args (mutate_EventSet s elements h)
  = ((Event_new args h).1, mutate_EventSet s elements (Event_new args h).2).
Proof.
  unfold Event_new. simpl.
  by destruct (Event__cache h !! _).
Qed.

Lemma Event_new_EventSets (args : EventArgs) (h : Heap) :
  exists e, (Event_new args h).1 = Return e
            /\ EventSets (Event_new args h).2 = EventSets h.
Proof.
  unfold Event_new. destruct (Event__cache h !! _); simpl; eauto.
Qed.

Lemma Event_new_frame (args : EventArgs) (h : Heap) :
  Value__value (Event_new args h).2 = Value__value h
  /\ NameResolvers (Event_new args h).2 = NameResolvers h.
Proof.
  unfold Event_new. by destruct (Event__cache h !! _).
Qed.

Lemma Value_value_mutate (v : Value) (s : nat) (elements : list Event)
    (h : Heap) :
  Value_value v (mutate_EventSet s elements h)
  = ((Value_value v h).1, mutate_EventSet s elements (Value_value v h).2).
Proof.
  unfold Value_value. munfold. simpl.
  destruct (not_nullish _); [done|].
  destruct (needsContext (datatype v)); simpl.
  - destruct (parseValue _ _ _ _); done.
  - destruct (parseValue _ _ _ _); done.
Qed.

Lemma fireEvent_mutate (w : Walker) (name : jsstring) (params : list jsstring)
    (s : nat) (elements : list Event) (h : Heap) :
  fireEvent w name params (mutate_EventSet s elements h)
  = ((fireEvent w name params h).1,
     mutate_EventSet s elements (fireEvent w name params h).2).
Proof.
  destruct w as [super ce cea|super matched context nr ce cea|super nr sub].
  - done.
  - simpl.
    destruct (matched || negb (bool_decide (name = js "text"))); [done|].
    munfold. rewrite Value_value_mutate.
    destruct (Value_value (el super) h) as [[value|e] h1]; simpl; [|done].
    assert (read_context context (mutate_EventSet s elements h1)
            = read_context context h1) as -> by by destruct context.
    destruct (equal _ _ _ _) as [[|]|e]; done.
  - unfold fireEvent. rewrite !SingleSubwalker_fireEvent_spec.
    by destruct (_ && _).
Qed.

Lemma EventSet_copy_spec (c : nat) (h : Heap) :
  exists s,
    EventSet_copy c h
    = (Return s, set_EventSets (<[s := read_EventSet c h]> (EventSets h)) h)
    /\ EventSets h !! s = None.
Proof.
  unfold EventSet_copy, new_EventSet. munfold. eexists. split; [reflexivity|].
  apply not_elem_of_dom, is_fresh.
Qed.

Lemma EventSet_copy_mutate (c s : nat) (elements : list Event) (h : Heap) :
  is_Some (EventSets h !! s) -> c <> s ->
  EventSet_copy c (mutate_EventSet s elements h)
  = ((EventSet_copy c h).1, mutate_EventSet s elements (EventSet_copy c h).2).
Proof.
  intros Hs Hne. unfold EventSet_copy. munfold.
  rewrite mutate_EventSet_lookup_ne by done.
  by apply new_EventSet_mutate.
Qed.

(** [possible()] always returns; the set it returns is a new object that
    holds the possible events; the set objects there were are unchanged. *)
Lemma possible_spec (w : Walker) (h : Heap) :
  exists s w1 h1,
    possible w h = (Return (s, w1), h1)
    /\ EventSets h !! s = None
    /\ EventSets h1 !! s = Some (possible_events w h)
    /\ (forall c, is_Some (EventSets h !! c) ->
                  EventSets h1 !! c = EventSets h !! c)
    /\ (forall c, c ∈ cached_sets w1 ->
                  c ∈ cached_sets w \/ (is_Some (EventSets h1 !! c) /\ c <> s)).
Proof.
  revert h.
  induction w as [super ce cea|super matched context nr ce cea|super nr sub IH];
    intros h.
  - simpl. unfold makeEventSet. munfold.
    destruct (new_EventSet_spec [] h) as (s & h1 & Hn & Hfresh & HE).
    rewrite Hn. exists s, (EmptyWalker super ce cea), h1.
    split; [done|]. split; [done|]. rewrite HE.
    split; [by rewrite lookup_insert_eq|]. split.
    + intros c Hc. apply lookup_insert_ne. intros <-.
      rewrite Hfresh in Hc. by destruct Hc.
    + intros c Hc. by left.
  - cbn [possible]. unfold ValueWalker__possible.
    destruct (possibleCached super) as [c|] eqn:Hcached.
    + munfold. destruct (EventSet_copy_spec c h) as (s & Hcopy & Hfresh).
      rewrite Hcopy. eexists s, _, _. split; [reflexivity|].
      split; [done|]. simpl. rewrite Hcached.
      split; [by rewrite lookup_insert_eq|]. split.
      * intros c' Hc'. apply lookup_insert_ne. intros <-.
        rewrite Hfresh in Hc'. by destruct Hc'.
      * intros c' Hc'. by left.
    + munfold. cbn [possible_events]. rewrite Hcached.
      destruct matched.
      * unfold makeEventSet.
        destruct (new_EventSet_spec [] h) as (c & h0 & Hn & Hfc & HE0).
        rewrite Hn.
        destruct (EventSet_copy_spec c h0) as (s & Hcopy & Hfresh).
        rewrite Hcopy. eexists s, _, _. split; [reflexivity|]. simpl.
        rewrite HE0 in Hfresh |- *.
        assert (s <> c) as Hsc.
        { intros ->. by rewrite lookup_insert_eq in Hfresh. }
        rewrite lookup_insert_ne in Hfresh by done.
        split; [done|].
        unfold read_EventSet. rewrite HE0, !lookup_insert_eq. simpl.
        split; [done|]. split.
        -- intros c' Hc'. rewrite !lookup_insert_ne; [done| |];
             intros <-; [rewrite Hfc in Hc'|rewrite Hfresh in Hc'];
             by destruct Hc'.
        -- intros c' Hc'. apply list_elem_of_singleton in Hc' as ->.
           right. split; [|done].
           rewrite lookup_insert_ne by done. by rewrite lookup_insert_eq.
      * destruct (Event_new_EventSets
                    (Spread [js "text"; rawValue (el super)]) h)
          as (ev & Hev & HEev).
        destruct (Event_new _ h) as [r hE] eqn:Hnew. simpl in Hev, HEev.
        subst r. unfold makeEventSet.
        destruct (new_EventSet_spec [ev] hE) as (c & h0 & Hn & Hfc & HE0).
        rewrite Hn.
        destruct (EventSet_copy_spec c h0) as (s & Hcopy & Hfresh).
        rewrite Hcopy. eexists s, _, _. split; [reflexivity|]. simpl.
        rewrite HE0, HEev in Hfresh |- *. rewrite HEev in Hfc.
        assert (s <> c) as Hsc.
        { intros ->. by rewrite lookup_insert_eq in Hfresh. }
        rewrite lookup_insert_ne in Hfresh by done.
        split; [done|].
        unfold read_EventSet. rewrite HE0, !lookup_insert_eq. simpl.
        split; [done|]. split.
        -- intros c' Hc'. rewrite !lookup_insert_ne; [done| |];
             intros <-; [rewrite Hfc in Hc'|rewrite Hfresh in Hc'];
             by destruct Hc'.
        -- intros c' Hc'. apply list_elem_of_singleton in Hc' as ->.
           right. split; [|done].
           rewrite lookup_insert_ne by done. by rewrite lookup_insert_eq.
  - cbn [possible]. munfold.
    destruct (IH h) as (c & sub1 & h1 & Hp & Hfc & Hcont & Hkeep & Hcached).
    rewrite Hp.
    destruct (EventSet_copy_spec c h1) as (s & Hcopy & Hfresh).
    rewrite Hcopy. eexists s, _, _. split; [reflexivity|]. simpl.
    assert (s <> c) as Hsc.
    { intros ->. by rewrite Hcont in Hfresh. }
    split.
    { destruct (EventSets h !! s) as [x|] eqn:Hs; [|done].
      rewrite <- (Hkeep s) in Hs by (rewrite Hs; eauto). congruence. }
    unfold read_EventSet. rewrite Hcont, lookup_insert_eq. simpl.
    split; [done|]. split.
    + intros c' Hc'. rewrite lookup_insert_ne; [by apply Hkeep|].
      intros <-. rewrite <- (Hkeep s) in Hc' by done.
      rewrite Hfresh in Hc'. by destruct Hc'.
    + intros c' Hc'. apply elem_of_app in Hc' as [Hc'|Hc'].
      * left. apply elem_of_app. by left.
      * destruct (Hcached c' Hc') as [Hold|[Hnew Hne]].
        -- left. apply elem_of_app. by right.
        -- right. assert (c' <> s) as Hne'.
           { intros ->. rewrite Hfresh in Hnew. by destruct Hnew. }
           split; [|done]. by rewrite lookup_insert_ne.
Qed.

Lemma bind_mutate {A B : Type} (m : M A) (k : A -> M B) (s : nat)
    (elements : list Event) (h : Heap) :
  m (mutate_EventSet s elements h)
  = ((m h).1, mutate_EventSet s elements (m h).2) ->
  (forall a h1, m h = (Return a, h1) ->
     k a (mutate_EventSet s elements h1)
     = ((k a h1).1, mutate_EventSet s elements (k a h1).2)) ->
  bind m k (mutate_EventSet s elements h)
  = ((bind m k h).1, mutate_EventSet s elements (bind m k h).2).
Proof.
  intros Hm Hk. unfold bind. rewrite Hm.
  destruct (m h) as [[a|e] h1]; simpl; [|done]. by apply Hk.
Qed.

Lemma ValueWalker__possible_spec (super : WalkerBase Value) (matched : bool)
    (h : Heap) :
  exists c super' h1,
    ValueWalker__possible super matched h = (Return (c, super'), h1)
    /\ (possibleCached super = Some c \/ EventSets h !! c = None)
    /\ (forall x, is_Some (EventSets h !! x) -> is_Some (EventSets h1 !! x)).
Proof.
  unfold ValueWalker__possible.
  destruct (possibleCached super) as [c|].
  { exists c, super, h. split; [done|]. split; [by left|done]. }
  munfold.
  assert (forall l h0,
             EventSets h0 = EventSets h ->
             exists c h1,
               makeEventSet l h0 = (Return c, h1)
               /\ EventSets h !! c = None
               /\ forall x, is_Some (EventSets h !! x) ->
                            is_Some (EventSets h1 !! x)) as Hmk.
  { intros l h0 HE. unfold makeEventSet.
    destruct (new_EventSet_spec (match l with Some ev => [ev] | None => [] end)
                h0) as (c & h1 & Hn & Hfc & HE1).
    exists c, h1. rewrite HE in Hfc, HE1. split; [done|]. split; [done|].
    intros x Hx. rewrite HE1, lookup_insert_ne; [done|].
    intros <-. rewrite Hfc in Hx. by destruct Hx. }
  destruct matched.
  - destruct (Hmk None h eq_refl) as (c & h1 & -> & Hfc & Hkeep).
    eexists _, _, _. split; [reflexivity|]. split; [by right|done].
  - destruct (Event_new_EventSets (Spread [js "text"; rawValue (el super)]) h)
      as (ev & Hev & HEev).
    destruct (Event_new _ h) as [r hE]. simpl in Hev, HEev. subst r.
    destruct (Hmk (Some ev) hE HEev) as (c & h1 & -> & Hfc & Hkeep).
    eexists _, _, _. split; [reflexivity|]. split; [by right|done].
Qed.

Lemma ValueWalker__possible_mutate (super : WalkerBase Value) (matched : bool)
    (s : nat) (elements : list Event) (h : Heap) :
  is_Some (EventSets h !! s) ->
  ValueWalker__possible super matched (mutate_EventSet s elements h)
  = ((ValueWalker__possible super matched h).1,
     mutate_EventSet s elements (ValueWalker__possible super matched h).2).
Proof.
  intros Hs. unfold ValueWalker__possible.
  destruct (possibleCached super) as [c|]; [done|].
  apply bind_mutate; [|done].
  destruct matched.
  - by apply new_EventSet_mutate.
  - apply bind_mutate; [apply Event_new_mutate|].
    intros ev hE Hev. apply new_EventSet_mutate.
    destruct (Event_new_EventSets (Spread [js "text"; rawValue (el super)]) h)
      as (ev' & _ & HE).
    rewrite Hev in HE. simpl in HE. by rewrite HE.
Qed.

(** Overwriting a set object that is none of the walker's cached sets
    commutes with [possible()]. *)
Lemma possible_mutate (w : Walker) (s : nat) (elements : list Event)
    (h : Heap) :
  is_Some (EventSets h !! s) -> s ∉ cached_sets w ->
  possible w (mutate_EventSet s elements h)
  = ((possible w h).1, mutate_EventSet s elements (possible w h).2).
Proof.
  revert h.
  induction w as [super ce cea|super matched context nr ce cea|super nr sub IH];
    intros h Hs Hnot.
  - simpl. apply bind_mutate; [|done]. by apply new_EventSet_mutate.
  - cbn [possible]. apply bind_mutate.
    { by apply ValueWalker__possible_mutate. }
    intros [c super'] h1 Hp.
    destruct (ValueWalker__possible_spec super matched h)
      as (c0 & super0 & h0 & Hp0 & Hc & Hkeep).
    rewrite Hp in Hp0. injection Hp0 as <- <- <-.
    apply bind_mutate; [|done].
    apply EventSet_copy_mutate; [by apply Hkeep|].
    intros ->. destruct Hc as [Hc|Hc].
    + apply Hnot. simpl. rewrite Hc. by apply list_elem_of_singleton.
    + rewrite Hc in Hs. by destruct Hs.
  - cbn [possible]. simpl in Hnot. apply bind_mutate.
    { apply IH; [done|]. intros Hin. apply Hnot, elem_of_app. by right. }
    intros [c sub1] h1 Hp.
    destruct (possible_spec sub h)
      as (c0 & sub0 & h0 & Hp0 & Hfc & Hcont & Hkeep & _).
    rewrite Hp in Hp0. injection Hp0 as <- <- <-.
    apply bind_mutate; [|done].
    apply EventSet_copy_mutate; [by rewrite Hkeep|].
    intros ->. rewrite Hfc in Hs. by destruct Hs.
Qed.

(** C7.  [possible()] always returns, and the set it returns is a new
    object: it is none of the set objects that existed before the call (the
    sets of earlier calls among them) and none of the walker's cached sets.
    Whatever the caller then writes into it, a later [possible()] returns
    the same new set with the same elements and leaves the same walker, and
    every [fireEvent] has the same result. *)
Theorem possible_returns_fresh_set (w : Walker) (h : Heap)
    (Hvalid : cache_valid w h) :
  exists s w1 h1,
    possible w h = (Return (s, w1), h1)
    /\ EventSets h !! s = None
    /\ is_Some (EventSets h1 !! s)
    /\ (s ∉ cached_sets w1)
    /\ cache_valid w1 h1
    /\ forall elements,
         (exists s2 w2 h2,
            possible w1 h1 = (Return (s2, w2), h2)
            /\ s2 <> s
            /\ possible w1 (mutate_EventSet s elements h1)
               = (Return (s2, w2), mutate_EventSet s elements h2)
            /\ read_EventSet s2 (mutate_EventSet s elements h2)
               = read_EventSet s2 h2)
         /\ (forall name params,
               fireEvent w1 name params (mutate_EventSet s elements h1)
               = ((fireEvent w1 name params h1).1,
                  mutate_EventSet s elements
                    (fireEvent w1 name params h1).2)).
Proof.
  destruct (possible_spec w h)
    as (s & w1 & h1 & Hp & Hfresh & Hcont & Hkeep & Hcached).
  exists s, w1, h1. split; [exact Hp|]. split; [exact Hfresh|].
  assert (is_Some (EventSets h1 !! s)) as Hs by (rewrite Hcont; eauto).
  split; [exact Hs|].
  assert (forall c, c ∈ cached_sets w1 ->
                    is_Some (EventSets h1 !! c) /\ c <> s) as Hc1.
  { intros c Hc. destruct (Hcached c Hc) as [Hold|Hnew]; [|exact Hnew].
    pose proof (Hvalid c Hold) as Hv. split; [by rewrite Hkeep|].
    intros ->. rewrite Hfresh in Hv. by destruct Hv. }
  split; [intros Hin; by destruct (Hc1 s Hin)|].
  split; [intros c Hc; by destruct (Hc1 c Hc)|].
  intros elements. split; [|intros name params; apply fireEvent_mutate].
  destruct (possible_spec w1 h1)
    as (s2 & w2 & h2 & Hp2 & Hfresh2 & _).
  assert (s2 <> s) as Hne.
  { intros ->. rewrite Hfresh2 in Hs. by destruct Hs. }
  exists s2, w2, h2. split; [exact Hp2|]. split; [exact Hne|]. split.
  - rewrite possible_mutate; [by rewrite Hp2|exact Hs|].
    intros Hin. by destruct (Hc1 s Hin).
  - by apply mutate_EventSet_lookup_ne.
Qed.

(** The witness: a walker of [value "x"] that has cached its set. *)
Lemma possible_returns_fresh_set_witness :
  exists w0 h0 s0 w h,
    newWalker 1 (ValueP token_x) 0 document_heap = Some (Return w0, h0)
    /\ possible w0 h0 = (Return (s0, w), h)
    /\ cached_sets w = [0] /\ s0 = 1
    /\ cache_valid w h
    /\ exists s w1 h1,
         possible w h = (Return (s, w1), h1) /\ s = 2 /\ cached_sets w1 = [0]
         /\ possible w1 (mutate_EventSet s [] h1)
            = (Return (3, w1),
               mutate_EventSet s [] (possible w1 h1).2).
Proof.
  eexists _, _, _, _, _.
  split; [reflexivity|]. split; [reflexivity|].
  split; [reflexivity|]. split; [reflexivity|].
  match goal with |- cache_valid ?w ?h /\ _ =>
    assert (cache_valid w h) as Hvalid
  end.
  { intros c Hc. apply list_elem_of_singleton in Hc as ->.
    vm_compute. eauto. }
  split; [exact Hvalid|].
  destruct (possible_returns_fresh_set _ _ Hvalid)
    as (s & w1 & h1 & Hp & _ & _ & _ & _ & Hmut).
  exists s, w1, h1. split; [exact Hp|].
  vm_compute in Hp. injection Hp as <- <- <-.
  split; [reflexivity|]. split; [reflexivity|].
  destruct (Hmut []) as [(s2 & w2 & h2 & Hp2 & _ & Hm & _) _].
  rewrite Hm. rewrite Hp2. simpl.
  vm_compute in Hp2. injection Hp2 as <- <- <-. reflexivity.
Defined.

(** ** Possible events are accepted *)

(** What [value] returns depends on the stored values only, and reading it
    keeps the name resolvers there are. *)
Lemma Value_value_frame (v : Value) (h : Heap) :
  (forall h', Value__value h' = Value__value h ->
              (Value_value v h').1 = (Value_value v h).1)
  /\ (forall l, is_Some (NameResolvers h !! l) ->
                NameResolvers (Value_value v h).2 !! l = NameResolvers h !! l).
Proof.
  split.
  - intros h' Hsame. unfold Value_value. munfold. rewrite Hsame.
    destruct (not_nullish _); [done|].
    destruct (needsContext (datatype v)); simpl.
    + unfold read_NameResolver. simpl. rewrite !lookup_insert_eq. simpl.
      by destruct (parseValue _ _ _ _).
    + by destruct (parseValue _ _ _ _).
  - intros l Hl. unfold Value_value. munfold.
    destruct (not_nullish _); [done|].
    destruct (needsContext (datatype v)); simpl.
    + destruct (parseValue _ _ _ _); simpl;
        rewrite insert_insert_eq; apply lookup_insert_ne; intros <-;
        apply elem_of_dom in Hl; by apply is_fresh in Hl.
    + by destruct (parseValue _ _ _ _).
Qed.

Lemma _cloneIfNeeded_frame (obj : nat) (memo : gmap nat nat) (h : Heap)
    (other : nat) (memo1 : gmap nat nat) (h1 : Heap) :
  memo_ok memo h -> is_Some (NameResolvers h !! obj) ->
  _cloneIfNeeded obj memo h = (Return (other, memo1), h1) ->
  memo_ok memo1 h1
  /\ Value__value h1 = Value__value h
  /\ Event__cache h1 = Event__cache h
  /\ EventSets h1 = EventSets h
  /\ is_Some (NameResolvers h1 !! other)
  /\ read_NameResolver other h1 = read_NameResolver obj h
  /\ (forall l, is_Some (NameResolvers h !! l) ->
                NameResolvers h1 !! l = NameResolvers h !! l).
Proof.
  intros Hmemo Hobj. unfold _cloneIfNeeded.
  destruct (memo !! obj) as [o|] eqn:Hm.
  - intros [= <- <- <-]. destruct (Hmemo obj o Hm) as (_ & Ho & Heq).
    done.
  - unfold NameResolver_clone, new_NameResolver. munfold.
    intros [= <- <- <-]. simpl.
    set (l := fresh (dom (NameResolvers h))).
    assert (forall x, is_Some (NameResolvers h !! x) -> x <> l) as Hfresh.
    { intros x Hx ->. apply elem_of_dom in Hx. by apply is_fresh in Hx. }
    assert (forall x, is_Some (NameResolvers h !! x) ->
                      <[l:=read_NameResolver obj h]> (NameResolvers h) !! x
                      = NameResolvers h !! x) as Hkeep.
    { intros x Hx. apply lookup_insert_ne. intros <-. by apply (Hfresh l). }
    split; [|split; [done|split; [done|split; [done|split; [|split; [|exact Hkeep]]]]]].
    + intros r r' Hr. unfold read_NameResolver in *. simpl.
      destruct (decide (r = obj)) as [->|Hne].
      * rewrite lookup_insert_eq in Hr. injection Hr as <-.
        rewrite lookup_insert_eq, Hkeep by done. simpl.
        split; [done|]. split; [eauto|].
        by rewrite lookup_insert_eq, Hkeep.
      * rewrite lookup_insert_ne in Hr by done.
        destruct (Hmemo r r' Hr) as (Hr1 & Hr2 & Heq).
        rewrite !Hkeep by done. done.
    + rewrite lookup_insert_eq. eauto.
    + unfold read_NameResolver at 1. simpl. by rewrite lookup_insert_eq.
Qed.

Lemma store_kept_refl (h : Heap) : store_kept h h.
Proof. by repeat split. Qed.

Lemma store_kept_trans (h1 h2 h3 : Heap) :
  store_kept h1 h2 -> store_kept h2 h3 -> store_kept h1 h3.
Proof.
  intros (Hv1 & Hc1 & Hi1 & Hs1 & Hr1) (Hv2 & Hc2 & Hi2 & Hs2 & Hr2).
  split; [congruence|]. split; [congruence|]. split; [congruence|].
  split.
  - intros c Hc. rewrite Hs2, Hs1; [done..|]. by rewrite Hs1.
  - intros l Hl. rewrite Hr2, Hr1; [done..|]. by rewrite Hr1.
Qed.


(** In such a state the possible events of a Value walker are the event of
    its raw value, and there is none once it has matched. *)
Lemma accepts_possible_ValueWalker (super : WalkerBase Value)
    (matched : bool) (context : option nat) (nr : nat) (ce cea : bool)
    (h : Heap) (ev : Event) :
  accepts_possible (ValueWalker super matched context nr ce cea) h ->
  ev ∈ possible_events (ValueWalker super matched context nr ce cea) h ->
  matched = false /\ Event_params ev = [js "text"; rawValue (el super)].
Proof.
  intros (Hcached & Hintern & _) Hin. simpl in Hin.
  destruct (possibleCached super) as [c|].
  { destruct (Hcached c eq_refl) as [_ Hall]. by apply Hall. }
  destruct matched; [by apply elem_of_nil in Hin|].
  split; [done|]. unfold Event_new in Hin. cbn zeta in Hin.
  destruct (Event__cache h !! _) as [e|] eqn:Hlook; simpl in Hin;
    apply list_elem_of_singleton in Hin as ->; [by apply Hintern|done].
Qed.



Lemma accepts_possible_events (w : Walker) (h : Heap) (ev : Event) :
  accepts_possible w h -> ev ∈ possible_events w h ->
  exists raw, Event_params ev = [js "text"; raw].
Proof.
  induction w as [super ce cea|super matched context nr ce cea|super nr sub IH].
  - intros _ Hin. by apply elem_of_nil in Hin.
  - intros Hacc Hin.
    destruct (accepts_possible_ValueWalker super matched context nr ce cea
                h ev Hacc Hin) as [_ Hp].
    eauto.
  - intros [_ Hsub] Hin. by apply IH.
Qed.

Lemma _cloneIfNeeded_kept (obj : nat) (memo : gmap nat nat) (h : Heap)
    (other : nat) (memo1 : gmap nat nat) (h1 : Heap) :
  memo_ok memo h -> is_Some (NameResolvers h !! obj) ->
  _cloneIfNeeded obj memo h = (Return (other, memo1), h1) ->
  memo_ok memo1 h1 /\ store_kept h h1
  /\ is_Some (NameResolvers h1 !! other)
  /\ read_NameResolver other h1 = read_NameResolver obj h.
Proof.
  intros Hmemo Hobj Hc.
  destruct (_cloneIfNeeded_frame obj memo h other memo1 h1 Hmemo Hobj Hc)
    as (Hm1 & HV & HC & HS & Hother & Hread & Hkeep).
  split; [exact Hm1|]. split; [|done].
  split; [exact HV|]. split; [exact HC|]. split.
  - unfold _cloneIfNeeded in Hc. destruct (memo !! obj).
    + by injection Hc as _ _ <-.
    + unfold NameResolver_clone, new_NameResolver in Hc. munfold.
      by injection Hc as _ _ <-.
  - split; [intros c _; by rewrite HS|exact Hkeep].
Qed.




(** Reading [value] again returns the same value. *)
Lemma Value_value_again (v : Value) (h : Heap) (val : any) :
  (Value_value v h).1 = Return val ->
  (Value_value v (Value_value v h).2).1 = Return val
  /\ EventSets (Value_value v h).2 = EventSets h
  /\ Event__cache (Value_value v h).2 = Event__cache h.
Proof.
  unfold Value_value. munfold.
  destruct (not_nullish (default undefined (Value__value h !! _))) eqn:Hnn.
  { simpl. intros Hval. by rewrite Hnn. }
  destruct (needsContext (datatype v)); simpl.
  - unfold read_NameResolver. simpl. rewrite !lookup_insert_eq. simpl.
    destruct (parseValue _ _ _ _) as [a|e] eqn:Hparse; simpl;
      intros [= ->].
    rewrite lookup_insert_eq. simpl.
    destruct (not_nullish val); [done|].
    rewrite !lookup_insert_eq. simpl. by rewrite Hparse.
  - destruct (parseValue _ _ _ _) as [a|e] eqn:Hparse; simpl;
      intros [= ->].
    rewrite lookup_insert_eq. simpl.
    destruct (not_nullish val); [done|]. by rewrite ?Hparse.
Qed.

(** The states in which possible events are accepted are kept by
    [fireEvent]. *)
Lemma fireEvent_accepts (w : Walker) (name : jsstring)
    (params : list jsstring) (h : Heap) (r : FireEventResult) (w' : Walker)
    (h' : Heap) :
  accepts_possible w h ->
  fireEvent w name params h = (Return (r, w'), h') ->
  accepts_possible w' h'
  /\ (forall l, is_Some (NameResolvers h !! l) ->
                NameResolvers h' !! l = NameResolvers h !! l).
Proof.
  destruct w as [super ce cea|super matched context nr ce cea|super nr sub];
    intros Hacc Hfire.
  - simpl in Hfire. munfold. by injection Hfire as <- <- <-.
  - simpl in Hfire.
    destruct (matched || negb (bool_decide (name = js "text"))) eqn:Hguard.
    { munfold. by injection Hfire as <- <- <-. }
    apply orb_false_iff in Hguard as [-> _].
    destruct Hacc as (Hcached & Hintern & Hnr & Hctx & Heq).
    destruct (Heq eq_refl) as (v & Hval & Hequal).
    munfold.
    destruct (Value_value_again (el super) h v Hval) as (Hagain & HS & HC).
    destruct (Value_value_frame (el super) h) as [_ Hres].
    destruct (Value_value (el super) h) as [rv h1]. simpl in *. subst rv.
    assert (read_context context h1 = read_context context h) as Hctx1.
    { destruct Hctx as [->| ->]; [done|]. simpl. unfold read_NameResolver.
      by rewrite Hres. }
    destruct (equal _ _ _ _) as [[|]|e]; simpl in Hfire; [| |discriminate];
      injection Hfire as <- <- <-.
    + split; [|exact Hres]. cbn [accepts_possible]. simpl.
      split; [done|]. split; [by rewrite HC|].
      split; [by rewrite Hres|]. split; [exact Hctx|done].
    + split; [|exact Hres]. cbn [accepts_possible].
      split; [intros c Hc; unfold read_EventSet; rewrite HS; by apply Hcached|].
      split; [by rewrite HC|]. split; [by rewrite Hres|].
      split; [exact Hctx|]. intros _. exists v. split; [exact Hagain|].
      by rewrite Hctx1.
  - unfold fireEvent in Hfire. rewrite SingleSubwalker_fireEvent_spec in Hfire.
    destruct (_ && _); [discriminate|]. by injection Hfire as _ <- <-.
Qed.


(** A new Value walker is in such a state when its name resolver is an
    object of the store, no other event is interned under the key of its
    event, and the datatype accepts the raw form. *)
Lemma ValueWalker_new_accepts (v : Value) (resolver : nat) (h : Heap)
    (w : Walker) (h' : Heap) :
  is_Some (NameResolvers h !! resolver) ->
  (forall ev, Event__cache h !! join [js "text"; rawValue v] = Some ev ->
              Event_params ev = [js "text"; rawValue v]) ->
  (exists value,
      (Value_value v h).1 = Return value /\
      equal (datatype v) (Some (rawValue v)) value
        (read_context (if needsContext (datatype v) then Some resolver
                       else None) h) = Return true) ->
  ValueWalker_new v resolver h = (Return w, h') ->
  accepts_possible w h'.
Proof.
  intros Hnr Hcache (value & Hval & Hequal) Hnew.
  unfold ValueWalker_new, Walker_new, Walker___newID in Hnew. munfold.
  injection Hnew as <- <-. cbn [accepts_possible].
  simpl. split; [done|]. split; [exact Hcache|]. split; [done|]. split.
  - destruct (needsContext (datatype v)); auto.
  - intros _. exists value. split; [|exact Hequal].
    destruct (Value_value_frame v h) as [Hfst _].
    by rewrite (Hfst (set_Walker__id _ h) eq_refl).
Qed.



(** The walker of a definition of [value "x"]: [possible()] returns the
    event of the value, which a copy of the walker answers with [NoMatch]
    when it is handed the event, and with a [TypeError] when it is called
    with the name and the parameters of the event, while the copy of the
    sub-walker alone answers [Ok]. *)
Example possible_event_refused_by_DefineWalker :
  exists w h s w1 h1 ev c h2,
    newWalker 2 (Define (mkBasePattern 2 (js "/define")) (js "a")
                   (ValueP token_x)) 0 document_heap
    = Some (Return w, h)
    /\ possible w h = (Return (s, w1), h1)
    /\ read_EventSet s h1 = [ev]
    /\ Event_params ev = [js "text"; js "x"]
    /\ clone w1 h1 = (Return c, h2)
    /\ fire c ev h2 = (Return (NoMatch, c), h2)
    /\ fireEvent c (js "text") [js "x"] h2 = (Throw TypeError, h2)
    /\ match c with
       | DefineWalker _ _ subwalker =>
           exists subwalker',
             (fireEvent subwalker (js "text") [js "x"] h2).1
             = Return (Ok, subwalker')
       | _ => False
       end.
Proof.
  eexists _, _, _, _, _, _, _, _.
  split; [reflexivity|]. split; [reflexivity|]. split; [reflexivity|].
  split; [reflexivity|]. split; [reflexivity|]. split; [reflexivity|].
  split; [reflexivity|]. eexists. reflexivity.
Qed.

(** * Further properties *)

(** ** Keys of events *)

Lemma app_comma_inj (a a' x x' : jsstring) :
  comma_free a -> comma_free a' ->
  a ++ 44%N :: x = a' ++ 44%N :: x' -> a = a' /\ x = x'.
Proof.
  unfold comma_free. revert a'.
  induction a as [|c a IH]; intros [|c' a'] Ha Ha' Heq; simpl in Heq.
  - by injection Heq as ->.
  - injection Heq as <- _. exfalso. apply Ha'. apply elem_of_cons. by left.
  - injection Heq as -> _. exfalso. apply Ha. apply elem_of_cons. by left.
  - injection Heq as -> Heq.
    destruct (IH a') as [-> ->]; [| |exact Heq|done].
    + intros Hin. apply Ha. apply elem_of_cons. by right.
    + intros Hin. apply Ha'. apply elem_of_cons. by right.
Qed.

Lemma join_cons_cons (a b : jsstring) (rest : list jsstring) :
  join (a :: b :: rest) = a ++ 44%N :: join (b :: rest).
Proof. reflexivity. Qed.

(** The key of an event determines its parameters when the parameters are
    at least one and hold no comma: on such lists [join] is injective. *)
Theorem join_injective (p q : list jsstring)
    (Hp : p <> []) (Hq : q <> [])
    (Hpc : Forall comma_free p) (Hqc : Forall comma_free q)
    (Hjoin : join p = join q) :
  p = q.
Proof.
  revert q Hq Hqc Hjoin.
  induction p as [|a p IH]; [done|]. clear Hp.
  intros [|a' q] Hq Hqc Hjoin; [done|]. clear Hq.
  apply Forall_cons in Hpc as [Ha Hpc]. apply Forall_cons in Hqc as [Ha' Hqc].
  destruct p as [|b p], q as [|b' q].
  - simpl in Hjoin. by subst.
  - rewrite join_cons_cons in Hjoin. simpl in Hjoin. subst a.
    exfalso. apply Ha. apply elem_of_app. right. apply elem_of_cons. by left.
  - rewrite join_cons_cons in Hjoin. simpl in Hjoin. subst a'.
    exfalso. apply Ha'. apply elem_of_app. right. apply elem_of_cons. by left.
  - rewrite !join_cons_cons in Hjoin.
    destruct (app_comma_inj _ _ _ _ Ha Ha' Hjoin) as [-> Hrest].
    f_equal. by apply IH.
Qed.

Lemma join_injective_witness :
  [js "text"; js "a b"] <> [] /\ [js "te" ++ js "xt"; js "a b"] <> []
  /\ Forall comma_free [js "text"; js "a b"]
  /\ join [js "text"; js "a b"] = join [js "te" ++ js "xt"; js "a b"]
  /\ [js "text"; js "a b"] = [js "te" ++ js "xt"; js "a b"].
Proof.
  assert (Forall comma_free [js "text"; js "a b"]) as Hc.
  { repeat constructor; unfold comma_free; intros Hin;
      repeat (apply elem_of_cons in Hin as [Hin|Hin]; [discriminate|]);
      by apply elem_of_nil in Hin. }
  split; [discriminate|]. split; [discriminate|]. split; [exact Hc|].
  split; [reflexivity|].
  apply (join_injective [js "text"; js "a b"]
           [js "te" ++ js "xt"; js "a b"]);
    [discriminate|discriminate|exact Hc|exact Hc|reflexivity].
Defined.

(** ** The event cache *)

Lemma Event_cache_ok_initial : Event_cache_ok initial_heap.
Proof.
  split.
  - intros key ev Hlook. vm_compute in Hlook.
    change (({[ js "<empty>" := mkEvent 0 [js "<empty>"] (js "<empty>") ]}
               : gmap jsstring Event) !! key = Some ev) in Hlook.
    apply lookup_singleton_Some in Hlook as [<- <-]. repeat split.
    vm_compute. lia.
  - intros key1 ev1 key2 ev2 H1 H2 _.
    change (({[ js "<empty>" := mkEvent 0 [js "<empty>"] (js "<empty>") ]}
               : gmap jsstring Event) !! key1 = Some ev1) in H1.
    change (({[ js "<empty>" := mkEvent 0 [js "<empty>"] (js "<empty>") ]}
               : gmap jsstring Event) !! key2 = Some ev2) in H2.
    apply lookup_singleton_Some in H1 as [<- _].
    by apply lookup_singleton_Some in H2 as [<- _].
Qed.

Lemma Event_new_cache_ok (args : EventArgs) (h : Heap) :
  Event_cache_ok h -> Event_cache_ok (Event_new args h).2.
Proof.
  intros [Hkeys Hids]. unfold Event_new.
  destruct (Event__cache h !! join (EventArgs_params args)) as [e|] eqn:Hlook;
    [done|].
  simpl. split.
  - intros key ev. simpl.
    destruct (decide (join (EventArgs_params args) = key)) as [<-|Hne].
    + rewrite lookup_insert_eq. intros [= <-]. simpl. repeat split. lia.
    + rewrite lookup_insert_ne by done. intros Hk.
      destruct (Hkeys key ev Hk) as (H1 & H2 & H3). repeat split; try done.
      lia.
  - intros key1 ev1 key2 ev2. simpl.
    destruct (decide (join (EventArgs_params args) = key1)) as [<-|Hne1];
      destruct (decide (join (EventArgs_params args) = key2)) as [<-|Hne2];
      rewrite ?lookup_insert_eq, ?lookup_insert_ne by done.
    + done.
    + intros [= <-] H2 Hid. simpl in Hid.
      destruct (Hkeys key2 ev2 H2) as (_ & _ & Hlt). lia.
    + intros H1 [= <-] Hid. simpl in Hid.
      destruct (Hkeys key1 ev1 H1) as (_ & _ & Hlt). lia.
    + apply Hids.
Qed.

(** One and only one event is made for each key: two constructions return
    the same object exactly when the joins of their parameters are equal,
    and objects of different keys have different [hash()]; the constructor
    keeps the cache in order. *)
Theorem Event_new_same_iff_same_key (a b : EventArgs) (h : Heap)
    (Hok : Event_cache_ok h) :
  exists e1 h1 e2 h2,
    Event_new a h = (Return e1, h1) /\ Event_new b h1 = (Return e2, h2)
    /\ Event_key e1 = join (EventArgs_params a)
    /\ Event_key e2 = join (EventArgs_params b)
    /\ (e1 = e2 <-> join (EventArgs_params a) = join (EventArgs_params b))
    /\ (Event_hash e1 = Event_hash e2
        <-> join (EventArgs_params a) = join (EventArgs_params b))
    /\ Event_cache_ok h2.
Proof.
  pose proof (Event_new_cache_ok a h Hok) as Hok1.
  pose proof (Event_new_cache_ok b _ Hok1) as Hok2.
  assert (forall args h0, Event_cache_ok h0 ->
            exists e, Event_new args h0 = (Return e, (Event_new args h0).2)
                      /\ Event__cache (Event_new args h0).2
                           !! join (EventArgs_params args) = Some e) as Hnew.
  { intros args h0 _. unfold Event_new.
    destruct (Event__cache h0 !! _) as [e|] eqn:Hlook; simpl.
    - by exists e.
    - eexists. split; [done|]. by rewrite lookup_insert_eq. }
  destruct (Hnew a h Hok) as (e1 & He1 & Hc1).
  destruct (Hnew b _ Hok1) as (e2 & He2 & Hc2).
  set (h1 := (Event_new a h).2) in *. set (h2 := (Event_new b h1).2) in *.
  exists e1, h1, e2, h2. split; [exact He1|]. split; [exact He2|].
  assert (Event__cache h2 !! join (EventArgs_params a) = Some e1) as Hc1'.
  { subst h2. unfold Event_new.
    destruct (Event__cache h1 !! join (EventArgs_params b)) eqn:Hlook;
      simpl; [done|].
    rewrite lookup_insert_ne; [done|]. intros Heq. rewrite Heq in Hlook.
    congruence. }
  destruct Hok2 as [Hkeys Hids].
  destruct (Hkeys _ _ Hc1') as (Hk1 & _). destruct (Hkeys _ _ Hc2) as (Hk2 & _).
  split; [exact Hk1|]. split; [exact Hk2|]. split; [|split; [|done]].
  - split; [intros <-; congruence|]. intros Heq. rewrite Heq in Hc1'.
    congruence.
  - split.
    + intros Hid. by apply (Hids _ e1 _ e2).
    + intros Heq. rewrite Heq in Hc1'. congruence.
Qed.

Lemma Event_new_same_iff_same_key_witness :
  Event_cache_ok initial_heap /\
  exists e1 h1 e2 h2,
    Event_new (Spread [js "text"; js "x"]) initial_heap = (Return e1, h1)
    /\ Event_new (OneArray [js "text"; js "y"]) h1 = (Return e2, h2)
    /\ e1 <> e2 /\ Event_hash e1 <> Event_hash e2.
Proof.
  split; [exact Event_cache_ok_initial|].
  destruct (Event_new_same_iff_same_key (Spread [js "text"; js "x"])
              (OneArray [js "text"; js "y"]) initial_heap
              Event_cache_ok_initial)
    as (e1 & h1 & e2 & h2 & H1 & H2 & _ & _ & Hiff & Hhash & _).
  exists e1, h1, e2, h2. split; [exact H1|]. split; [exact H2|]. split.
  - intros Heq. apply Hiff in Heq. discriminate Heq.
  - intros Heq. apply Hhash in Heq. discriminate Heq.
Defined.

(** ** What [fireEvent] does to a walker *)

Lemma Value_value_footprint (v : Value) (h : Heap) :
  EventSets (Value_value v h).2 = EventSets h
  /\ Event__cache (Value_value v h).2 = Event__cache h
  /\ Event__id (Value_value v h).2 = Event__id h
  /\ Walker__id (Value_value v h).2 = Walker__id h
  /\ Pattern__id (Value_value v h).2 = Pattern__id h
  /\ Ref_resolvesTo (Value_value v h).2 = Ref_resolvesTo h.
Proof.
  unfold Value_value. munfold.
  destruct (not_nullish _); [done|].
  destruct (needsContext (datatype v)); simpl;
    by destruct (parseValue _ _ _ _).
Qed.

Lemma ValueWalker_fireEvent_heap (super : WalkerBase Value) (matched : bool)
    (context : option nat) (nr : nat) (ce cea : bool) (name : jsstring)
    (params : list jsstring) (h : Heap) :
  (fireEvent (ValueWalker super matched context nr ce cea) name params h).2 = h
  \/ (fireEvent (ValueWalker super matched context nr ce cea) name params h).2
     = (Value_value (el super) h).2.
Proof.
  simpl. destruct (matched || _); [by left|]. right. munfold.
  destruct (Value_value (el super) h) as [[value|e] h1]; [|done]. simpl.
  by destruct (equal _ _ _ _) as [[|]|].
Qed.

(** No walker of these classes answers with errors; an answer [NoMatch]
    leaves the walker as it was, so that the event can be handed to another
    walker; the walker keeps its pattern and identity, and no event, set or
    walker object is made. *)
Theorem fireEvent_NoMatch_unchanged (w : Walker) (name : jsstring)
    (params : list jsstring) (h : Heap) (r : FireEventResult) (w' : Walker)
    (h' : Heap)
    (Hfire : fireEvent w name params h = (Return (r, w'), h')) :
  (r = Ok \/ r = NoMatch)
  /\ (r = NoMatch -> w' = w)
  /\ Walker_el w' = Walker_el w
  /\ walker_ids w' = walker_ids w
  /\ nameResolvers w' = nameResolvers w
  /\ EventSets h' = EventSets h
  /\ Event__cache h' = Event__cache h
  /\ Walker__id h' = Walker__id h.
Proof.
  revert r w' h' Hfire.
  induction w as [super ce cea|super matched context nr ce cea|super nr sub IH];
    intros r w' h' Hfire.
  - simpl in Hfire. munfold. injection Hfire as <- <- <-.
    unfold EmptyWalker_fireEvent. destruct (_ && _); repeat split; auto.
  - assert (EventSets h' = EventSets h /\ Event__cache h' = Event__cache h
            /\ Walker__id h' = Walker__id h) as (HS & HC & HW).
    { destruct (ValueWalker_fireEvent_heap super matched context nr ce cea
                  name params h) as [Hh|Hh];
        rewrite Hfire in Hh; simpl in Hh; subst h'; [done|].
      destruct (Value_value_footprint (el super) h) as (? & ? & _ & ? & _).
      done. }
    destruct (ValueWalker_fireEvent_cases super context nr matched ce cea
                name params h)
      as [[h1 Hf]|[(e & h1 & Hf)|(h1 & _ & Hf)]];
      rewrite Hf in Hfire; [|discriminate|];
      injection Hfire as <- <- <-; repeat split; auto. discriminate.
  - unfold fireEvent in Hfire. rewrite SingleSubwalker_fireEvent_spec in Hfire.
    destruct (_ && _); [discriminate|].
    injection Hfire as <- <- <-. repeat split; auto.
Qed.

Lemma fireEvent_NoMatch_unchanged_witness :
  exists w h w' h',
    newWalker 1 (ValueP token_x) 0 document_heap = Some (Return w, h)
    /\ fireEvent w (js "text") [js "y"] h = (Return (NoMatch, w'), h')
    /\ w' = w.
Proof.
  eexists _, _, _, _. split; [reflexivity|].
  match goal with |- ?f = _ /\ _ =>
    assert (f = (Return (NoMatch, _), _)) as Hf by reflexivity
  end.
  split; [exact Hf|].
  exact (proj1 (proj2 (fireEvent_NoMatch_unchanged _ _ _ _ _ _ _ Hf)) eq_refl).
Defined.

(** ** Walkers with one sub-walker *)


(** ** After an accepted event *)

(** An event answered with [Ok] completes the walker: [end()] then reports
    no error and [possible()] returns an empty set, whatever set the walker
    had cached before. *)
Theorem fireEvent_Ok_completes (w : Walker) (name : jsstring)
    (params : list jsstring) (h : Heap) (w' : Walker) (h' : Heap)
    (Hfire : fireEvent w name params h = (Return (Ok, w'), h')) :
  Walker_end w' = Return EndOk
  /\ exists s w2 h2,
       possible w' h' = (Return (s, w2), h2)
       /\ EventSets h2 !! s = Some []
       /\ EventSets h' !! s = None.
Proof.
  assert (Walker_end w' = Return EndOk /\ forall h0, possible_events w' h0 = [])
    as [Hend Hevents].
  { revert w' h' Hfire.
    induction w as [super ce cea|super matched context nr ce cea
                   |super nr sub IH]; intros w' h' Hfire.
    - simpl in Hfire. munfold. by injection Hfire as _ <- _.
    - apply ValueWalker_fireEvent_Ok in Hfire as (_ & _ & -> & _). done.
    - unfold fireEvent in Hfire.
      rewrite SingleSubwalker_fireEvent_spec in Hfire.
      by destruct (_ && _). }
  split; [exact Hend|].
  destruct (possible_spec w' h') as (s & w2 & h2 & Hp & Hfresh & Hcont & _).
  exists s, w2, h2. rewrite Hevents in Hcont. done.
Qed.

Lemma fireEvent_Ok_completes_witness :
  exists w0 h0 s0 w h w' h',
    newWalker 1 (ValueP token_x) 0 document_heap = Some (Return w0, h0)
    /\ possible w0 h0 = (Return (s0, w), h)
    /\ cached_sets w = [0] /\ read_EventSet 0 h <> []
    /\ fireEvent w (js "text") [js "x"] h = (Return (Ok, w'), h')
    /\ Walker_end w' = Return EndOk
    /\ exists s w2 h2,
         possible w' h' = (Return (s, w2), h2) /\ EventSets h2 !! s = Some [].
Proof.
  eexists _, _, _, _, _, _, _.
  split; [reflexivity|]. split; [reflexivity|]. split; [reflexivity|].
  split; [discriminate|].
  match goal with |- ?f = _ /\ _ =>
    assert (f = (Return (Ok, _), _)) as Hf by reflexivity
  end.
  split; [exact Hf|].
  destruct (fireEvent_Ok_completes _ _ _ _ _ _ Hf)
    as (Hend & s & w2 & h2 & Hp & Hs & _).
  split; [exact Hend|]. by exists s, w2, h2.
Defined.

(** ** The cached set *)

(** [_possible()] of a leaf walker hands out the cached set itself: the set
    it returns is the walker's cache afterwards, and calling it again
    returns that same object and changes nothing; a cache that is there is
    returned as it is.  (Only [possible()] copies.) *)
Theorem _possible_returns_cache (w : Walker) (h : Heap) :
  match w with
  | DefineWalker _ _ _ => True
  | _ =>
      exists c w1 h1,
        _possible w h = (Return (c, w1), h1)
        /\ cached_sets w1 = [c]
        /\ _possible w1 h1 = (Return (c, w1), h1)
        /\ (forall c0, cached_sets w = [c0] -> c = c0 /\ w1 = w /\ h1 = h)
        /\ (cached_sets w = [] -> EventSets h !! c = None)
  end.
Proof.
  assert (forall l h0, exists c h1,
             new_EventSet l h0 = (Return c, h1)
             /\ EventSets h0 !! c = None) as Hnew.
  { intros l h0. destruct (new_EventSet_spec l h0) as (c & h1 & ? & ? & _).
    eauto. }
  destruct w as [super ce cea|super matched context nr ce cea|super nr sub];
    [| |done].
  - simpl. unfold EmptyWalker__possible.
    destruct super as [i e [c|] sa]; simpl.
    + exists c, (EmptyWalker (mkWalkerBase i e (Some c) sa) ce cea), h.
      split; [done|]. split; [done|]. split; [done|]. split; [|done].
      intros cx [= <-]. done.
    + unfold makeEventSet. munfold.
      destruct (Hnew [] h) as (c & h1 & -> & Hfresh).
      eexists _, _, _. split; [reflexivity|]. simpl.
      split; [done|]. split; [done|]. split; [intros cx [=]|done].
  - simpl. unfold ValueWalker__possible.
    destruct super as [i e [c|] sa]; simpl.
    + exists c,
        (ValueWalker (mkWalkerBase i e (Some c) sa) matched context nr ce cea),
        h.
      split; [done|]. split; [done|]. split; [done|]. split; [|done].
      intros cx [= <-]. done.
    + unfold makeEventSet. munfold. destruct matched.
      * destruct (Hnew [] h) as (c & h1 & -> & Hfresh).
        eexists _, _, _. split; [reflexivity|]. simpl.
        split; [done|]. split; [done|]. split; [intros cx [=]|done].
      * destruct (Event_new_EventSets (Spread [js "text"; rawValue e]) h)
          as (ev & Hev & HE).
        destruct (Event_new _ h) as [r hE]. simpl in Hev, HE. subst r.
        destruct (Hnew [ev] hE) as (c & h1 & -> & Hfresh).
        eexists _, _, _. split; [reflexivity|]. simpl.
        split; [done|]. split; [done|]. split; [intros cx [=]|].
        intros _. by rewrite <- HE.
Qed.

(** ** Suppressing attributes *)

Lemma _suppressAttributes_idempotent (w : Walker) :
  _suppressAttributes (_suppressAttributes w) = _suppressAttributes w.
Proof.
  induction w as [super ce cea|super matched context nr ce cea|super nr sub IH];
    [done..|].
  simpl. destruct (suppressedAttributes super) eqn:Hs; simpl.
  - by rewrite Hs.
  - done.
Qed.

Lemma Walker_leaf__suppressAttributes (w : Walker) :
  Walker_leaf (_suppressAttributes w) = Walker_leaf w.
Proof.
  induction w as [super ce cea|super matched context nr ce cea|super nr sub IH];
    [done..|].
  simpl. by destruct (suppressedAttributes super).
Qed.

Lemma fireEvent__suppressAttributes (w : Walker) (name : jsstring)
    (params : list jsstring) (h : Heap) :
  fireEvent (_suppressAttributes w) name params h
  = match fireEvent w name params h with
    | (Return (r, w'), h') => (Return (r, _suppressAttributes w'), h')
    | (Throw e, h') => (Throw e, h')
    end.
Proof.
  revert h.
  induction w as [super ce cea|super matched context nr ce cea|super nr sub IH];
    intros h.
  - done.
  - destruct (ValueWalker_fireEvent_cases super context nr matched ce cea
                name params h)
      as [[h1 Hf]|[(e & h1 & Hf)|(h1 & _ & Hf)]];
      cbn [_suppressAttributes]; by rewrite Hf.
  - rewrite (fireEvent_DefineWalker (_suppressAttributes _))
      by (cbn; destruct (suppressedAttributes super); eauto).
    rewrite (fireEvent_DefineWalker (DefineWalker super nr sub)) by eauto.
    rewrite Walker_leaf__suppressAttributes. by destruct (_ && _).
Qed.

Lemma possible__suppressAttributes (w : Walker) (h : Heap) :
  possible (_suppressAttributes w) h
  = match possible w h with
    | (Return (s, w'), h') => (Return (s, _suppressAttributes w'), h')
    | (Throw e, h') => (Throw e, h')
    end.
Proof.
  revert h.
  induction w as [super ce cea|super matched context nr ce cea|super nr sub IH];
    intros h.
  - cbn [_suppressAttributes possible]. munfold.
    by destruct (makeEventSet None h) as [[s|e] h1].
  - cbn [_suppressAttributes possible]. munfold.
    destruct (ValueWalker__possible super matched h) as [[[c super']|e] h1];
      [|done].
    by destruct (EventSet_copy c h1) as [[s|e] h2].
  - cbn [_suppressAttributes].
    destruct (suppressedAttributes super) eqn:Hs.
    + cbn [possible]. munfold.
      destruct (possible sub h) as [[[c sub']|e] h1]; [|done].
      destruct (EventSet_copy c h1) as [[s|e] h2]; [|done].
      simpl. by rewrite Hs.
    + cbn [possible]. munfold. rewrite IH.
      destruct (possible sub h) as [[[c sub']|e] h1]; [|done].
      destruct (EventSet_copy c h1) as [[s|e] h2]; [|done].
      simpl. by rewrite Hs.
Qed.

(** Suppressing attributes changes no answer of these walkers: it is
    idempotent, keeps [end()], and commutes with [fireEvent] and with
    [possible()], which return the same result and the same sets with or
    without it. *)
Theorem _suppressAttributes_changes_no_answer (w : Walker) (h : Heap) :
  _suppressAttributes (_suppressAttributes w) = _suppressAttributes w
  /\ Walker_end (_suppressAttributes w) = Walker_end w
  /\ Walker_el (_suppressAttributes w) = Walker_el w
  /\ (forall name params,
        fireEvent (_suppressAttributes w) name params h
        = match fireEvent w name params h with
          | (Return (r, w'), h') => (Return (r, _suppressAttributes w'), h')
          | (Throw e, h') => (Throw e, h')
          end)
  /\ possible (_suppressAttributes w) h
     = match possible w h with
       | (Return (s, w'), h') => (Return (s, _suppressAttributes w'), h')
       | (Throw e, h') => (Throw e, h')
       end.
Proof.
  split; [apply _suppressAttributes_idempotent|].
  split; [|split; [|split]].
  - induction w as [super ce cea|super matched context nr ce cea
                   |super nr sub IH]; [done..|].
    simpl. by destruct (suppressedAttributes super).
  - destruct w as [super ce cea|super matched context nr ce cea|super nr sub];
      [done..|].
    simpl. by destruct (suppressedAttributes super).
  - intros name params. apply fireEvent__suppressAttributes.
  - apply possible__suppressAttributes.
Qed.

Lemma newWalker_flags (fuel : nat) (p : Pattern) (r : nat) (h h' : Heap)
    (w : Walker) :
  newWalker fuel p r h = Some (Return w, h') ->
  Forall (fun b => b = false) (suppressed_flags w)
  /\ Forall (fun r' => r' = r) (nameResolvers w)
  /\ cached_sets w = [].
Proof.
  revert p h h' w.
  induction fuel as [|fuel IH]; intros p h h' w Hn; [discriminate|].
  destruct p as [b|v|b name|b name pat|b patA patB]; simpl in Hn.
  - injection Hn as <- <-. repeat constructor.
  - injection Hn as <- <-. repeat constructor.
  - destruct (Ref_resolvesTo h !! id b) as [d|]; [|discriminate].
    destruct (Pattern_pat d) as [pat|]; [|discriminate].
    by eapply IH.
  - munfold. simpl in Hn.
    destruct (newWalker fuel pat r _) as [[[sub|e] h2]|] eqn:Hsub;
      try discriminate.
    injection Hn as <- <-. destruct (IH _ _ _ _ Hsub) as (Hf & Hr & Hc).
    simpl. rewrite Hc. repeat split; by constructor.
  - discriminate.
Qed.

(** On a walker that [newWalker] made, [_suppressAttributes] sets the
    flag of every walker with a sub-walker; the leaf walker, which overrides
    it with an empty body, keeps its own. *)
Theorem _suppressAttributes_flags (fuel : nat) (p : Pattern) (r : nat)
    (h h' : Heap) (w : Walker)
    (Hnew : newWalker fuel p r h = Some (Return w, h')) :
  Forall (fun b => b = true)
    (SingleSubwalker_flags (_suppressAttributes w))
  /\ length (SingleSubwalker_flags (_suppressAttributes w))
     = length (SingleSubwalker_flags w)
  /\ last (suppressed_flags (_suppressAttributes w)) = Some false.
Proof.
  destruct (newWalker_flags _ _ _ _ _ _ Hnew) as (Hflags & _).
  clear Hnew. induction w as [super ce cea|super matched context nr ce cea
                             |super nr sub IH].
  - apply Forall_cons in Hflags as [Hs _]. simpl in *. rewrite Hs.
    repeat split. constructor.
  - apply Forall_cons in Hflags as [Hs _]. simpl in *. rewrite Hs.
    repeat split. constructor.
  - simpl in Hflags. apply Forall_cons in Hflags as [Hs Hrest].
    simpl in Hs. destruct (IH Hrest) as (Hall & Hlen & Hlast).
    simpl. rewrite Hs. simpl. split; [by constructor|].
    split; [by rewrite Hlen|].
    destruct (suppressed_flags (_suppressAttributes sub)) eqn:Hsf;
      [discriminate|]. done.
Qed.

Lemma _suppressAttributes_flags_witness :
  exists w h,
    newWalker 3 (Define (mkBasePattern 3 (js "/define[1]")) (js "a")
                   (Define (mkBasePattern 2 (js "/define[2]")) (js "b")
                      (ValueP token_x))) 0 document_heap
    = Some (Return w, h)
    /\ suppressed_flags w = [false; false; false]
    /\ suppressed_flags (_suppressAttributes w) = [true; true; false]
    /\ Forall (fun b => b = true)
         (SingleSubwalker_flags (_suppressAttributes w)).
Proof.
  eexists _, _.
  match goal with |- ?f = _ /\ _ =>
    assert (f = Some (Return _, _)) as Hn by reflexivity
  end.
  split; [exact Hn|]. split; [reflexivity|]. split; [reflexivity|].
  exact (proj1 (_suppressAttributes_flags _ _ _ _ _ _ Hn)).
Defined.

(** ** What a copy keeps *)

Lemma _cloneIfNeeded_footprint (obj : nat) (memo : gmap nat nat) (h : Heap) :
  EventSets (_cloneIfNeeded obj memo h).2 = EventSets h
  /\ Event__cache (_cloneIfNeeded obj memo h).2 = Event__cache h
  /\ Event__id (_cloneIfNeeded obj memo h).2 = Event__id h
  /\ Value__value (_cloneIfNeeded obj memo h).2 = Value__value h
  /\ Walker__id (_cloneIfNeeded obj memo h).2 = Walker__id h.
Proof.
  unfold _cloneIfNeeded. by destruct (memo !! obj).
Qed.

(** A copy observes the same pattern, is in the same state of matching and
    ends as the original; its cached set is not a copy but the very set
    object of the original, so that it offers the same possible events; and
    copying makes no event and no set and reads no value. *)
Theorem _clone_keeps_state (w : Walker) (memo : gmap nat nat) (h : Heap) :
  exists c memo' h2,
    _clone w memo h = (Return (c, memo'), h2)
    /\ Walker_el c = Walker_el w
    /\ Walker_matched c = Walker_matched w
    /\ Walker_end c = Walker_end w
    /\ suppressed_flags c = suppressed_flags w
    /\ cached_sets c = cached_sets w
    /\ possible_events c h2 = possible_events w h
    /\ EventSets h2 = EventSets h /\ Event__cache h2 = Event__cache h
    /\ Event__id h2 = Event__id h /\ Value__value h2 = Value__value h.
Proof.
  revert memo h.
  induction w as [super ce cea|super matched context nr ce cea|super nr sub IH];
    intros memo h.
  - simpl. munfold. simpl. eexists _, _, _. split; [reflexivity|].
    repeat split.
  - simpl. munfold. simpl.
    destruct (_cloneIfNeeded_footprint nr memo
                (set_Walker__id (S (Walker__id h)) h))
      as (HS & HC & HI & HV & _).
    destruct (_cloneIfNeeded_spec nr memo (set_Walker__id (S (Walker__id h)) h))
      as (nr' & memo1 & h1 & Hc & _).
    rewrite Hc in *. simpl in *.
    eexists _, _, _. split; [reflexivity|]. simpl.
    repeat split; try done.
    destruct (possibleCached super) as [c0|].
    + unfold read_EventSet. by rewrite HS.
    + destruct matched; [done|]. unfold Event_new. rewrite HC, HI. simpl.
      by destruct (Event__cache h !! _).
  - simpl. munfold. simpl.
    destruct (_cloneIfNeeded_footprint nr memo
                (set_Walker__id (S (Walker__id h)) h))
      as (HS & HC & HI & HV & _).
    destruct (_cloneIfNeeded_spec nr memo (set_Walker__id (S (Walker__id h)) h))
      as (nr' & memo1 & h1 & Hc & _).
    rewrite Hc in *. simpl in *.
    destruct (IH memo1 h1)
      as (sub' & memo2 & h2 & Hs & Hel & Hm & Hend & Hfl & Hcs & Hpe
          & HS2 & HC2 & HI2 & HV2).
    rewrite Hs. eexists _, _, _. split; [reflexivity|]. simpl.
    rewrite Hfl, Hcs. repeat split; try done; try congruence.
    rewrite Hpe. clear -HS HC HI.
    induction sub as [s0 a b|s0 m c0 n a b|s0 n sub0 IH0]; [done| |done].
    simpl. destruct (possibleCached s0).
    + unfold read_EventSet. by rewrite HS.
    + destruct m; [done|]. unfold Event_new. rewrite HC, HI.
      by destruct (Event__cache h !! _).
Qed.

(** [clone()] of an Empty walker returns the walker itself, but the copy of
    a walker above it holds a new Empty walker on the same pattern: an Empty
    walker is not kept through the copy of a walker that holds it. *)
Theorem EmptyWalker_clone (empty : WalkerBase BasePattern)
    (canEnd canEndAttribute : bool) (super : WalkerBase Pattern)
    (nameResolver : nat) (h : Heap) :
  clone (EmptyWalker empty canEnd canEndAttribute) h
  = (Return (EmptyWalker empty canEnd canEndAttribute), h)
  /\ exists super' nameResolver' subwalker' h2,
       clone (DefineWalker super nameResolver
                (EmptyWalker empty canEnd canEndAttribute)) h
       = (Return (DefineWalker super' nameResolver' subwalker'), h2)
       /\ Walker_hash subwalker' = S (Walker__id h)
       /\ Walker_el subwalker' = Empty (el empty)
       /\ Walker__id h2 = 2 + Walker__id h
       /\ (Walker_id empty <= Walker__id h ->
           subwalker' <> EmptyWalker empty canEnd canEndAttribute).
Proof.
  split; [done|].
  unfold clone. cbn [_clone]. munfold. simpl.
  destruct (_cloneIfNeeded_footprint nameResolver ∅
              (set_Walker__id (S (Walker__id h)) h)) as (_ & _ & _ & _ & HW).
  destruct (_cloneIfNeeded_spec nameResolver ∅
              (set_Walker__id (S (Walker__id h)) h))
    as (nr' & memo1 & h1 & Hc & _).
  rewrite Hc in *. simpl in *.
  eexists _, _, _, _. split; [reflexivity|]. simpl. rewrite HW.
  split; [done|]. split; [done|]. split; [done|].
  intros Hle Heq. injection Heq as Heq _ _. rewrite <- Heq in Hle.
  simpl in Hle. lia.
Qed.

(** ** A copy answers as the original *)

Lemma same_state_kept (w c : Walker) (h h' : Heap) :
  (forall l, is_Some (NameResolvers h !! l) ->
             NameResolvers h' !! l = NameResolvers h !! l) ->
  same_state w c h -> same_state w c h'.
Proof.
  intros Hkeep. revert c.
  induction w as [super ce cea|super matched context nr ce cea|super nr sub IH];
    intros [super' ce' cea'|super' matched' context' nr' ce' cea'
           |super' nr' sub']; simpl; try done.
  - intros (Hel & Hm & Hce & Hcea & Hctx & Hv & Hv').
    repeat split; try done.
    + destruct context as [l|], context' as [l'|]; simpl in *; try done.
      unfold read_NameResolver in *.
      rewrite !Hkeep by eauto. done.
    + intros l Hl. rewrite Hkeep by eauto. eauto.
    + intros l Hl. rewrite Hkeep by eauto. eauto.
  - apply IH.
Qed.

Lemma resolvers_live_kept (w : Walker) (h h' : Heap) :
  (forall l, is_Some (NameResolvers h !! l) ->
             NameResolvers h' !! l = NameResolvers h !! l) ->
  resolvers_live w h -> resolvers_live w h'.
Proof.
  intros Hkeep.
  induction w as [super ce cea|super matched context nr ce cea|super nr sub IH];
    simpl; [done| |].
  - intros [Hnr Hctx]. split; [|done]. by rewrite Hkeep.
  - intros [Hnr Hsub]. split; [by rewrite Hkeep|by apply IH].
Qed.

Lemma same_state_end (w c : Walker) (h : Heap) :
  same_state w c h -> Walker_end w = Walker_end c.
Proof.
  revert c.
  induction w as [super ce cea|super matched context nr ce cea|super nr sub IH];
    intros [super' ce' cea'|super' matched' context' nr' ce' cea'
           |super' nr' sub']; simpl; try done.
  - intros (Hel & _ & -> & _). by rewrite Hel.
  - apply IH.
Qed.

Lemma _clone_same_state (w : Walker) (memo : gmap nat nat) (h : Heap)
    (c : Walker) (memo' : gmap nat nat) (h2 : Heap) :
  resolvers_live w h -> memo_ok memo h ->
  _clone w memo h = (Return (c, memo'), h2) ->
  memo_ok memo' h2 /\ store_kept h h2 /\ same_state w c h2
  /\ resolvers_live c h2.
Proof.
  revert memo h c memo' h2.
  induction w as [super ce cea|super matched context nr ce cea|super nr sub IH];
    intros memo h c memo' h2 Hlive Hmemo Hc.
  - simpl in Hc. munfold. simpl in Hc. injection Hc as <- <- <-.
    split; [exact Hmemo|]. by repeat split.
  - simpl in Hc. munfold. simpl in Hc. destruct Hlive as [Hnr Hctx].
    destruct (_cloneIfNeeded nr memo _) as [[[nr' memo1]|e] h1] eqn:Hn;
      [|discriminate].
    injection Hc as <- <- <-.
    apply _cloneIfNeeded_kept in Hn as (Hm1 & Hk & Hnr' & Hread);
      [|exact Hmemo|exact Hnr].
    assert (store_kept h h1) as Hk'.
    { destruct Hk as (? & ? & ? & ? & ?). by repeat split. }
    split; [exact Hm1|]. split; [exact Hk'|].
    destruct Hk' as (_ & _ & _ & _ & Hkeep).
    split; [|by destruct Hctx as [->| ->]; split; eauto].
    simpl. repeat split; try done.
    + destruct Hctx as [->| ->]; [done|]. simpl. rewrite Hread.
      unfold read_NameResolver. by rewrite Hkeep.
    + intros l ->. destruct Hctx as [?|[= ->]]; [done|].
      rewrite Hkeep by done. done.
    + intros l Hl. by destruct context; simplify_eq.
  - simpl in Hc. munfold. simpl in Hc. destruct Hlive as [Hnr Hsub].
    destruct (_cloneIfNeeded nr memo _) as [[[nr' memo1]|e] h1] eqn:Hn;
      [|discriminate].
    apply _cloneIfNeeded_kept in Hn as (Hm1 & Hk & Hnr' & Hread);
      [|exact Hmemo|exact Hnr].
    assert (store_kept h h1) as Hk'.
    { destruct Hk as (? & ? & ? & ? & ?). by repeat split. }
    destruct (_clone sub memo1 h1) as [[[sub' memo2]|e] h3] eqn:Hs;
      [|discriminate].
    injection Hc as <- <- <-.
    apply IH in Hs as (Hm2 & Hk2 & Hss & Hl2); [|
      eapply resolvers_live_kept; [|exact Hsub];
      by destruct Hk' as (_ & _ & _ & _ & ?)|exact Hm1].
    split; [exact Hm2|]. split; [by eapply store_kept_trans|].
    split; [exact Hss|]. simpl. split; [|exact Hl2].
    destruct Hk2 as (_ & _ & _ & _ & Hkeep2). by rewrite Hkeep2.
Qed.

Lemma same_state_leaf (w c : Walker) (h : Heap) :
  same_state w c h ->
  Walker_matched (Walker_leaf w) = Walker_matched (Walker_leaf c).
Proof.
  revert c.
  induction w as [super ce cea|super matched context nr ce cea|super nr sub IH];
    intros [super' ce' cea'|super' matched' context' nr' ce' cea'
           |super' nr' sub']; simpl; try done.
  - by intros (_ & -> & _).
  - apply IH.
Qed.

Lemma same_state_fireEvent (w c : Walker) (name : jsstring)
    (params : list jsstring) (h : Heap) :
  same_state w c h ->
  (fireEvent w name params h).2 = (fireEvent c name params h).2
  /\ match (fireEvent w name params h).1, (fireEvent c name params h).1 with
     | Return (r, w'), Return (r', c') =>
         r = r' /\ same_state w' c' (fireEvent w name params h).2
     | Throw e, Throw e' =>
         e = e' /\ same_state w c (fireEvent w name params h).2
     | _, _ => False
     end.
Proof.
  revert c.
  induction w as [super ce cea|super matched context nr ce cea|super nr sub IH];
    intros [super' ce' cea'|super' matched' context' nr' ce' cea'
           |super' nr' sub']; try done.
  - intros (Hel & <- & <- & <- & Hctx & Hv & Hv').
    assert (forall h1,
              (forall l, is_Some (NameResolvers h !! l) ->
                         NameResolvers h1 !! l = NameResolvers h !! l) ->
              read_context context h1 = read_context context' h1) as Hctx1.
    { intros h1 Hkeep.
      destruct context as [l|], context' as [l'|]; simpl in *; try done.
      unfold read_NameResolver in *. rewrite !Hkeep by eauto. done. }
    simpl. rewrite <- Hel.
    destruct (matched || _); [simpl; by repeat split|]. munfold.
    pose proof (proj2 (Value_value_frame (el super) h)) as Hkeep.
    destruct (Value_value (el super) h) as [[value|e] h1]; simpl in *.
    + rewrite <- (Hctx1 h1 Hkeep).
      destruct (equal _ _ _ _) as [[|]|e]; simpl.
      * split; [done|]. split; [done|]. repeat split; try done.
        -- by apply Hctx1.
        -- intros l Hl. rewrite Hkeep by eauto. eauto.
        -- intros l Hl. rewrite Hkeep by eauto. eauto.
      * split; [done|]. split; [done|]. repeat split; try done.
        -- by apply Hctx1.
        -- intros l Hl. rewrite Hkeep by eauto. eauto.
        -- intros l Hl. rewrite Hkeep by eauto. eauto.
      * split; [done|]. split; [done|]. repeat split; try done.
        -- by apply Hctx1.
        -- intros l Hl. rewrite Hkeep by eauto. eauto.
        -- intros l Hl. rewrite Hkeep by eauto. eauto.
    + split; [done|]. split; [done|]. repeat split; try done.
      * by apply Hctx1.
      * intros l Hl. rewrite Hkeep by eauto. eauto.
      * intros l Hl. rewrite Hkeep by eauto. eauto.
  - intros Hss.
    rewrite (fireEvent_DefineWalker (DefineWalker super nr sub)) by eauto.
    rewrite (fireEvent_DefineWalker (DefineWalker super' nr' sub')) by eauto.
    cbn [Walker_leaf]. rewrite (same_state_leaf sub sub' h Hss).
    by destruct (_ && _).
Qed.

Lemma same_state_fireEvents (evs : list FiredEvent) (w c : Walker)
    (h : Heap) :
  same_state w c h ->
  (fireEvents w evs h).1.1 = (fireEvents c evs h).1.1
  /\ (fireEvents w evs h).2 = (fireEvents c evs h).2
  /\ same_state (fireEvents w evs h).1.2 (fireEvents c evs h).1.2
       (fireEvents w evs h).2.
Proof.
  revert w c h.
  induction evs as [|[name params] evs IH]; intros w c h Hss; [done|].
  destruct (same_state_fireEvent w c name params h Hss) as [Hh Hr].
  cbn [fireEvents].
  destruct (fireEvent w name params h) as [[[r w1]|e] h1];
    destruct (fireEvent c name params h) as [[[r' c1]|e'] h1'];
    simpl in *; try done; subst h1'; destruct Hr as [<- Hss1];
    destruct (IH _ _ _ Hss1) as (Hrs & Hhs & Hfin);
    destruct (fireEvents _ evs h1) as [[rs wf] hf];
    destruct (fireEvents _ evs h1) as [[rs' cf] hf'];
    simpl in *; by subst.
Qed.

(** The copy that [clone()] returns answers every sequence of events as
    the walker it was made from does: the same answers, the same store at
    the end, and walkers in the same state of matching, which end alike. *)
Theorem clone_fireEvents (w : Walker) (evs : list FiredEvent) (h : Heap)
    (c : Walker) (h2 : Heap)
    (Hlive : resolvers_live w h)
    (Hclone : clone w h = (Return c, h2)) :
  (fireEvents c evs h2).1.1 = (fireEvents w evs h2).1.1
  /\ (fireEvents c evs h2).2 = (fireEvents w evs h2).2
  /\ same_state (fireEvents w evs h2).1.2 (fireEvents c evs h2).1.2
       (fireEvents w evs h2).2
  /\ Walker_end (fireEvents c evs h2).1.2
     = Walker_end (fireEvents w evs h2).1.2.
Proof.
  assert (same_state w c h2) as Hss.
  { destruct w as [super ce cea|super matched context nr ce cea|super nr sub].
    - by injection Hclone as <- <-.
    - unfold clone in Hclone. munfold.
      destruct (_clone _ ∅ h) as [[[c' memo']|e] h'] eqn:Hc; [|discriminate].
      injection Hclone as <- <-.
      by apply _clone_same_state in Hc as (_ & _ & ? & _).
    - unfold clone in Hclone. munfold.
      destruct (_clone _ ∅ h) as [[[c' memo']|e] h'] eqn:Hc; [|discriminate].
      injection Hclone as <- <-.
      by apply _clone_same_state in Hc as (_ & _ & ? & _). }
  destruct (same_state_fireEvents evs w c h2 Hss) as (Hrs & Hhs & Hfin).
  split; [done|]. split; [done|]. split; [done|].
  symmetry. by eapply same_state_end.
Qed.

Lemma clone_fireEvents_witness :
  exists w h c h2,
    newWalker 1 (ValueP (mkValue (mkBasePattern 1 (js "/element/value"))
                           QName_datatype (js "foo") (js "QName")
                           (js "xsd") (js "http://b"))) 0 document_heap
    = Some (Return w, h)
    /\ clone w h = (Return c, h2)
    /\ (fireEvents c [(js "text", [js "bar"]); (js "text", [js "foo"])] h2).1.1
       = [Return NoMatch; Return Ok]
    /\ (fireEvents w [(js "text", [js "bar"]); (js "text", [js "foo"])] h2).1.1
       = [Return NoMatch; Return Ok].
Proof.
  eexists _, _, _, _. split; [reflexivity|].
  match goal with |- ?f = _ /\ _ =>
    assert (f = (Return _, _)) as Hc by reflexivity
  end.
  split; [exact Hc|]. split; [reflexivity|].
  match type of Hc with clone ?w ?h = _ =>
    assert (resolvers_live w h) as Hl
      by (cbn; split; [by vm_compute; eexists|by right])
  end.
  rewrite <- (proj1 (clone_fireEvents _
                 [(js "text", [js "bar"]); (js "text", [js "foo"])]
                 _ _ _ Hl Hc)).
  reflexivity.
Defined.

(** ** Making walkers *)

Lemma set_Walker__id_twice (n m : nat) (h : Heap) :
  set_Walker__id n (set_Walker__id m h) = set_Walker__id n h.
Proof. done. Qed.

Lemma set_Walker__id_same (h : Heap) : set_Walker__id (Walker__id h) h = h.
Proof. by destruct h. Qed.

Lemma newWalker_Define (fuel : nat) (b : BasePattern) (name : jsstring)
    (pat : Pattern) (r : nat) (h : Heap) :
  newWalker (S fuel) (Define b name pat) r h
  = match newWalker fuel pat r (set_Walker__id (S (Walker__id h)) h) with
    | Some (Return sub, h2) =>
        Some (Return (DefineWalker
                        (mkWalkerBase (Walker__id h) (Define b name pat)
                           None false) r sub), h2)
    | Some (Throw e, h2) => Some (Throw e, h2)
    | None => None
    end.
Proof. reflexivity. Qed.

(** [newWalker] on a chain of definitions recurses once for each [Define]
    and once for the pattern at its end, and makes one walker for each
    [Define] before it reaches that pattern, with consecutive identifiers,
    outermost first.  At a [Value] the chain ends in a new unmatched walker
    on the resolver handed in, at an [Empty] in a new Empty walker on that
    pattern; at a pattern with two sub-patterns the call throws, after the
    identifiers of the walkers above have been taken. *)
Theorem newWalker_Define_chain (p : Pattern) (r : nat) (h : Heap) :
  newWalker (Define_depth p) p r h = None
  /\ match Define_body p with
     | Empty b =>
         exists w,
           newWalker (S (Define_depth p)) p r h
           = Some (Return w,
                   set_Walker__id (Walker__id h + S (Define_depth p)) h)
           /\ Walker_leaf w
              = EmptyWalker
                  (mkWalkerBase (Walker__id h + Define_depth p) b None false)
                  true true
           /\ walker_ids w = seq (Walker__id h) (S (Define_depth p))
     | ValueP v =>
         exists w,
           newWalker (S (Define_depth p)) p r h
           = Some (Return w,
                   set_Walker__id (Walker__id h + S (Define_depth p)) h)
           /\ Walker_leaf w
              = ValueWalker
                  (mkWalkerBase (Walker__id h + Define_depth p) v None false)
                  false (if needsContext (datatype v) then Some r else None)
                  r (Value_hasEmptyPattern v) (Value_hasEmptyPattern v)
           /\ walker_ids w = seq (Walker__id h) (S (Define_depth p))
     | TwoSubpatterns _ _ _ =>
         newWalker (S (Define_depth p)) p r h
         = Some (Throw (Error (js "derived classes must override this")),
                 set_Walker__id (Walker__id h + Define_depth p) h)
     | _ => True
     end.
Proof.
  revert h.
  induction p as [b|v|b name|b name pat IH|b patA IHA patB IHB]; intros h.
  - split; [done|]. simpl. eexists. unfold addWalker_Empty. munfold. simpl.
    rewrite Nat.add_0_r, Nat.add_1_r. done.
  - split; [done|]. simpl. eexists. unfold ValueWalker_new. munfold. simpl.
    rewrite Nat.add_0_r, Nat.add_1_r. done.
  - done.
  - destruct (IH (set_Walker__id (S (Walker__id h)) h)) as [Hnone Hbody].
    cbn [Define_body Define_depth]. rewrite !newWalker_Define, Hnone.
    split; [done|].
    change (Walker__id (set_Walker__id (S (Walker__id h)) h))
      with (S (Walker__id h)) in Hbody.
    rewrite !set_Walker__id_twice in Hbody.
    replace (S (Walker__id h) + Define_depth pat)
      with (Walker__id h + S (Define_depth pat)) in Hbody by lia.
    replace (S (Walker__id h) + S (Define_depth pat))
      with (Walker__id h + S (S (Define_depth pat))) in Hbody by lia.
    destruct (Define_body pat) as [b0|v0|b0 n0|b0 n0 p0|b0 pA pB];
      try done.
    + destruct Hbody as (w & Hw & Hleaf & Hids).
      eexists. rewrite Hw. split; [done|]. split.
      * cbn [Walker_leaf]. exact Hleaf.
      * cbn [walker_ids Walker_id]. by rewrite Hids.
    + destruct Hbody as (w & Hw & Hleaf & Hids).
      eexists. rewrite Hw. split; [done|]. split.
      * cbn [Walker_leaf]. exact Hleaf.
      * cbn [walker_ids Walker_id]. by rewrite Hids.
    + by rewrite Hbody.
  - split; [done|]. simpl.
    by rewrite Nat.add_0_r, set_Walker__id_same.
Qed.

(** A reference that leads back to itself through definitions alone, with
    no pattern in between that would make a walker of its own class: the
    recursion of [newWalker] has no end, on the reference and on every
    chain of definitions that ends in it.  No depth gives an answer. *)
Theorem newWalker_cycle (b : BasePattern) (name : jsstring) (d pat : Pattern)
    (r : nat) (h : Heap)
    (Hresolved : Ref_resolvesTo h !! id b = Some d)
    (Hpat : Pattern_pat d = Some pat)
    (Hbody : Define_body pat = Ref b name) :
  forall fuel q,
    Define_body q = Ref b name -> newWalker fuel q r h = None.
Proof.
  intros fuel. revert h Hresolved.
  induction fuel as [|fuel IH]; intros h Hresolved q Hq; [done|].
  destruct q as [b0|v0|b0 n0|b0 n0 q|b0 pA pB]; try discriminate.
  - injection Hq as -> ->. simpl. rewrite Hresolved, Hpat. by apply IH.
  - rewrite newWalker_Define. simpl in Hq. by rewrite IH.
Qed.

Lemma newWalker_cycle_witness :
  let ref := Ref (mkBasePattern 2 (js "/define/ref")) (js "a") in
  let d := Define (mkBasePattern 3 (js "/define")) (js "a") ref in
  let h := (_resolve {[ js "a" := d ]} ref initial_heap).2 in
  (_resolve {[ js "a" := d ]} ref initial_heap).1 = Return None
  /\ newWalker 1000 ref 0 h = None.
Proof.
  intros ref d h. split; [reflexivity|].
  apply (newWalker_cycle (mkBasePattern 2 (js "/define/ref")) (js "a")
           d ref 0 h); reflexivity.
Defined.

(** A reference that [_resolve] reports as unresolved is left without a
    definition, whatever it was bound to before, and [newWalker] on it
    throws a [TypeError] and makes no walker. *)
Theorem newWalker_unresolved_Ref (definitions : gmap jsstring Pattern)
    (p : Pattern) (h : Heap) (b : BasePattern) (name : jsstring)
    (Hcoh : refs_coherent p)
    (Hin : (b, name) ∈ refs p)
    (Hnone : definitions !! name = None) :
  exists l h',
    _resolve definitions p h = (Return (Some l), h')
    /\ Ref b name ∈ l
    /\ Ref_resolvesTo h' !! id b = None
    /\ forall fuel r,
         newWalker (S fuel) (Ref b name) r h' = Some (Throw TypeError, h').
Proof.
  destruct (_resolve_correct definitions p h) as (m & Hr & _ & Hbind).
  assert (Ref b name ∈ unresolved definitions p) as Hl.
  { unfold unresolved. apply list_elem_of_fmap. exists (b, name).
    split; [done|]. by apply list_elem_of_filter. }
  exists (unresolved definitions p), (set_Ref_resolvesTo m h).
  assert (m !! id b = None) as Hm by (by rewrite (Hbind Hcoh b name Hin)).
  split; [|split; [exact Hl|split; [exact Hm|]]].
  - rewrite Hr. destruct (unresolved definitions p); [|done].
    by apply elem_of_nil in Hl.
  - intros fuel r. simpl. by rewrite Hm.
Qed.

Lemma newWalker_unresolved_Ref_witness :
  let missing := Ref (mkBasePattern 2 (js "/g/ref[2]")) (js "missing") in
  let p := TwoSubpatterns (mkBasePattern 3 (js "/g"))
             (Ref (mkBasePattern 1 (js "/g/ref[1]")) (js "a")) missing in
  let d := Define (mkBasePattern 4 (js "/define")) (js "a")
             (Empty (mkBasePattern 5 (js "/define/empty"))) in
  exists l h',
    _resolve {[ js "a" := d ]} p initial_heap = (Return (Some l), h')
    /\ newWalker 1 missing 0 h' = Some (Throw TypeError, h').
Proof.
  intros missing p d.
  assert (refs_coherent p) as Hcoh.
  { intros b1 n1 b2 n2 H1 H2 Hid. simpl in H1, H2.
    rewrite !elem_of_cons in H1, H2.
    destruct H1 as [H1|[H1|H1]]; [| |by apply elem_of_nil in H1];
      destruct H2 as [H2|[H2|H2]]; try (by apply elem_of_nil in H2);
      injection H1 as -> ->; injection H2 as -> ->;
      first [reflexivity | discriminate Hid]. }
  assert ((mkBasePattern 2 (js "/g/ref[2]"), js "missing") ∈ refs p) as Hin
    by (simpl; right; left).
  assert (({[ js "a" := d ]} : gmap jsstring Pattern) !! js "missing" = None)
    as Hnone by (apply lookup_singleton_ne; discriminate).
  destruct (newWalker_unresolved_Ref {[ js "a" := d ]} p initial_heap
              (mkBasePattern 2 (js "/g/ref[2]")) (js "missing")
              Hcoh Hin Hnone) as (l & h' & Hr & _ & _ & Hn).
  exists l, h'. split; [exact Hr|exact (Hn 0 0)].
Defined.

(** ** Resolving twice *)

(** Resolving a tree a second time against the same definitions gives the
    same answer and changes nothing. *)
Theorem _resolve_idempotent (definitions : gmap jsstring Pattern)
    (p : Pattern) (h : Heap) (Hcoh : refs_coherent p) :
  _resolve definitions p (_resolve definitions p h).2
  = _resolve definitions p h.
Proof.
  destruct (_resolve_correct definitions p h) as (m & Hr & Hframe & Hbind).
  destruct (_resolve_correct definitions p (set_Ref_resolvesTo m h))
    as (m2 & Hr2 & Hframe2 & Hbind2).
  rewrite Hr. simpl. rewrite Hr2, set_Ref_resolvesTo_twice.
  do 2 f_equal. apply map_eq. intros i.
  destruct (decide (i ∈ (fun r => id r.1) <$> refs p)) as [Hi|Hi].
  - apply list_elem_of_fmap in Hi as ([b n] & -> & Hin). simpl.
    by rewrite (Hbind Hcoh b n Hin), (Hbind2 Hcoh b n Hin).
  - by rewrite (Hframe2 i Hi).
Qed.

Lemma _resolve_idempotent_witness :
  let missing := Ref (mkBasePattern 2 (js "/g/ref[2]")) (js "missing") in
  let p := TwoSubpatterns (mkBasePattern 3 (js "/g"))
             (Ref (mkBasePattern 1 (js "/g/ref[1]")) (js "a")) missing in
  let d := Define (mkBasePattern 4 (js "/define")) (js "a")
             (Empty (mkBasePattern 5 (js "/define/empty"))) in
  _resolve {[ js "a" := d ]} p (_resolve {[ js "a" := d ]} p initial_heap).2
  = _resolve {[ js "a" := d ]} p initial_heap.
Proof.
  intros missing p d. apply _resolve_idempotent.
  intros b1 n1 b2 n2 H1 H2 Hid. simpl in H1, H2.
  rewrite !elem_of_cons in H1, H2.
  destruct H1 as [H1|[H1|H1]]; [| |by apply elem_of_nil in H1];
    destruct H2 as [H2|[H2|H2]]; try (by apply elem_of_nil in H2);
    injection H1 as -> ->; injection H2 as -> ->;
    first [reflexivity | discriminate Hid].
Defined.

(** ** What the walkers offer *)

Lemma join_head (kind : jsstring) (rest : list jsstring) (c : N)
    (s t : jsstring) :
  kind = c :: s -> exists t', join (kind :: rest) = c :: t'.
Proof.
  intros ->. destruct rest as [|x rest]; simpl; eauto.
Qed.

Lemma text_event_not_attribute (raw : jsstring) (ev : Event) :
  join (Event_params ev) = join [js "text"; raw] ->
  Event_isAttributeEvent ev = false.
Proof.
  unfold Event_isAttributeEvent.
  destruct (Event_params ev) as [|kind rest]; [done|]. intros Hj.
  apply orb_false_intro; apply bool_decide_eq_false; intros Hk;
    (eapply join_head in Hk as [t' Ht']; [|exact []]);
    rewrite Ht' in Hj; discriminate Hj.
Qed.

Lemma possible_events_text (w : Walker) (h : Heap) :
  Event_cache_ok h -> cached_sets w = [] ->
  match Walker_leaf w with
  | EmptyWalker _ _ _ => possible_events w h = []
  | ValueWalker super matched _ _ _ _ =>
      if matched then possible_events w h = []
      else exists ev,
             possible_events w h = [ev]
             /\ Event_key ev = join [js "text"; rawValue (el super)]
             /\ Event_isAttributeEvent ev = false
  | DefineWalker _ _ _ => False
  end.
Proof.
  intros [Hkeys _].
  induction w as [super ce cea|super matched context nr ce cea|super nr sub IH];
    cbn [cached_sets possible_events Walker_leaf]; [done| |].
  - destruct (possibleCached super); [done|]. intros _.
    destruct matched; [done|]. unfold Event_new. cbv zeta.
    cbn [EventArgs_params].
    destruct (Event__cache h !! _) as [cached|] eqn:Hc; cbn [fst].
    + destruct (Hkeys _ _ Hc) as (Hk & Hj & _).
      exists cached. split; [done|]. split; [done|].
      by eapply text_event_not_attribute.
    + eexists. split; [done|]. split; [done|].
      by eapply text_event_not_attribute.
  - intros Hnil. apply app_eq_nil in Hnil as [_ Hnil]. by apply IH.
Qed.

(** A walker that has not yet been asked offers at most one event, the
    ["text"] event of the raw value, and none once it has matched or when
    its chain ends in the Empty walker; it never offers an attribute event,
    whatever events were interned before. *)
Theorem possible_offers_text_only (w : Walker) (h : Heap)
    (Hcache : Event_cache_ok h)
    (Hasked : cached_sets w = []) :
  exists s w1 h1,
    possible w h = (Return (s, w1), h1)
    /\ Forall (fun ev => Event_isAttributeEvent ev = false)
         (read_EventSet s h1)
    /\ match Walker_leaf w with
       | EmptyWalker _ _ _ => read_EventSet s h1 = []
       | ValueWalker super matched _ _ _ _ =>
           if matched then read_EventSet s h1 = []
           else exists ev,
                  read_EventSet s h1 = [ev]
                  /\ Event_key ev = join [js "text"; rawValue (el super)]
       | DefineWalker _ _ _ => False
       end.
Proof.
  destruct (possible_spec w h) as (s & w1 & h1 & Hp & _ & Hs & _).
  exists s, w1, h1. split; [exact Hp|].
  unfold read_EventSet. rewrite Hs. simpl.
  pose proof (possible_events_text w h Hcache Hasked) as Hev.
  destruct (Walker_leaf w) as [super ce cea|super matched context nr ce cea
                              |super nr sub].
  - rewrite Hev. by split.
  - destruct matched.
    + rewrite Hev. by split.
    + destruct Hev as (ev & -> & Hk & Hattr). split; [by constructor|].
      by exists ev.
  - done.
Qed.

Lemma possible_offers_text_only_witness :
  exists w h s w1 h1,
    newWalker 2 (Define (mkBasePattern 2 (js "/define")) (js "a")
                   (ValueP token_x)) 0 document_heap
    = Some (Return w, h)
    /\ possible w h = (Return (s, w1), h1)
    /\ Forall (fun ev => Event_isAttributeEvent ev = false)
         (read_EventSet s h1).
Proof.
  eexists _, _. 
  destruct (possible_offers_text_only
              (DefineWalker
                 (mkWalkerBase 1 (Define (mkBasePattern 2 (js "/define"))
                                    (js "a") (ValueP token_x)) None false) 0
                 (ValueWalker (mkWalkerBase 2 token_x None false) false None 0
                    false false))
              (set_Walker__id 3 document_heap))
    as (s & w1 & h1 & Hp & Hall & _).
  - exact Event_cache_ok_initial.
  - reflexivity.
  - exists s, w1, h1. split; [reflexivity|]. split; [exact Hp|exact Hall].
Defined.

(** ** A value that does not parse *)

Lemma fireEvents_parse_error (super : WalkerBase Value)
    (context : option nat) (nr : nat) (ce cea : bool) (e : Exn)
    (evs : list FiredEvent) (h : Heap) :
  value_unset (el super) h ->
  parseValue (datatype (el super)) (xmlPath (Value_super (el super)))
    (rawValue (el super)) (schema_context (el super)) = Throw e ->
  (fireEvents (ValueWalker super false context nr ce cea) evs h).1.1
  = (fun ev : FiredEvent =>
       if bool_decide (ev.1 = js "text") then Throw e else Return NoMatch)
      <$> evs
  /\ (fireEvents (ValueWalker super false context nr ce cea) evs h).1.2
     = ValueWalker super false context nr ce cea
  /\ value_unset (el super)
       (fireEvents (ValueWalker super false context nr ce cea) evs h).2.
Proof.
  intros Hunset Hparse. revert h Hunset.
  induction evs as [|[name params] evs IH]; intros h Hunset; [done|].
  cbn [fireEvents fireEvent ValueWalker_fireEvent fmap list_fmap fst orb].
  destruct (bool_decide (name = js "text")) eqn:Hname; cbn [negb].
  - destruct (Value_value_unset (el super) h Hunset)
      as (h' & Hv & Hkeep & _).
    rewrite Hparse in Hv, Hkeep. munfold. rewrite Hv.
    assert (value_unset (el super) h') as Hunset'
      by (unfold value_unset in *; by rewrite Hkeep).
    destruct (IH h' Hunset') as (Hrs & Hw & Hu).
    destruct (fireEvents _ evs h') as [[rs w'] h'']. simpl in *.
    by subst.
  - munfold. destruct (IH h Hunset) as (Hrs & Hw & Hu).
    destruct (fireEvents _ evs h) as [[rs w'] h'']. simpl in *.
    by subst.
Qed.

(** The walker of a [Value] whose raw form the datatype does not parse
    throws the datatype's error on every ["text"] event, however often it
    is fired: the failure is not remembered, the walker stays as it was
    made and never matches, and any other event is not matched. *)
Theorem ValueWalker_parse_error (v : Value) (resolver : nat) (h : Heap)
    (e : Exn) (evs : list FiredEvent)
    (Hunset : value_unset v h)
    (Hparse : parseValue (datatype v) (xmlPath (Value_super v)) (rawValue v)
                (schema_context v) = Throw e) :
  exists w0 h1,
    ValueWalker_new v resolver h = (Return w0, h1)
    /\ (fireEvents w0 evs h1).1.1
       = (fun ev : FiredEvent =>
            if bool_decide (ev.1 = js "text") then Throw e
            else Return NoMatch) <$> evs
    /\ (fireEvents w0 evs h1).1.2 = w0
    /\ Walker_matched w0 = Some false
    /\ value_unset v (fireEvents w0 evs h1).2.
Proof.
  unfold ValueWalker_new, Walker_new. munfold. cbn [Walker___newID].
  eexists _, _. split; [reflexivity|].
  destruct (fireEvents_parse_error
              (mkWalkerBase (Walker__id h) v None false)
              (if needsContext (datatype v) then Some resolver else None)
              resolver (Value_hasEmptyPattern v) (Value_hasEmptyPattern v)
              e evs (set_Walker__id (S (Walker__id h)) h) Hunset Hparse)
    as (Hrs & Hw & Hu).
  by repeat split.
Qed.

Lemma ValueWalker_parse_error_witness :
  exists e w0 h1,
    ValueWalker_new qname_p_x 0 document_heap = (Return w0, h1)
    /\ (fireEvents w0 [(js "text", [js "p:x"]); (js "endTag", []);
                       (js "text", [js "y"])] h1).1.1
       = [Throw e; Return NoMatch; Throw e].
Proof.
  assert (exists e,
            parseValue (datatype qname_p_x)
              (xmlPath (Value_super qname_p_x)) (rawValue qname_p_x)
              (schema_context qname_p_x) = Throw e) as [e He]
    by (eexists; reflexivity).
  destruct (ValueWalker_parse_error qname_p_x 0 document_heap e
              [(js "text", [js "p:x"]); (js "endTag", []);
               (js "text", [js "y"])] eq_refl He)
    as (w0 & h1 & Hn & Hrs & _).
  exists e, w0, h1. split; [exact Hn|exact Hrs].
Defined.

(** ** The identifiers of a copy *)

(** The walkers of a copy take the next identifiers, outermost first: the
    hash of each is one no earlier walker has, and the copy of a walker and
    that walker never share a hash once the walker's own identifiers came
    from the counter. *)
Theorem _clone_walker_ids (w : Walker) (memo : gmap nat nat) (h : Heap) :
  exists c memo' h2,
    _clone w memo h = (Return (c, memo'), h2)
    /\ walker_ids c = seq (Walker__id h) (length (walker_ids w))
    /\ Walker_hash c = Walker__id h
    /\ Walker__id h2 = Walker__id h + length (walker_ids w)
    /\ NoDup (walker_ids c)
    /\ (Forall (fun i => i < Walker__id h) (walker_ids w) ->
        forall i, i ∈ walker_ids c -> i ∉ walker_ids w).
Proof.
  assert (exists c memo' h2,
            _clone w memo h = (Return (c, memo'), h2)
            /\ walker_ids c = seq (Walker__id h) (length (walker_ids w))
            /\ Walker_hash c = Walker__id h
            /\ Walker__id h2 = Walker__id h + length (walker_ids w))
    as (c & memo' & h2 & Hc & Hids & Hhash & Hnext).
  { revert memo h.
    induction w as [super ce cea|super matched context nr ce cea
                   |super nr sub IH]; intros memo h.
    - simpl. munfold. simpl. eexists _, _, _. split; [reflexivity|].
      simpl. repeat split. lia.
    - simpl. munfold. simpl.
      destruct (_cloneIfNeeded_spec nr memo
                  (set_Walker__id (S (Walker__id h)) h))
        as (nr' & memo1 & h1 & Hc & _ & _ & _ & _ & Hid & _).
      rewrite Hc. eexists _, _, _. split; [reflexivity|].
      simpl in *. repeat split. lia.
    - simpl. munfold. simpl.
      destruct (_cloneIfNeeded_spec nr memo
                  (set_Walker__id (S (Walker__id h)) h))
        as (nr' & memo1 & h1 & Hc & _ & _ & _ & _ & Hid & _).
      rewrite Hc.
      destruct (IH memo1 h1) as (sub' & memo2 & h2 & Hs & Hids & _ & Hnext).
      rewrite Hs. eexists _, _, _. split; [reflexivity|].
      simpl in *. rewrite Hids, Hid. repeat split. lia. }
  exists c, memo', h2. split; [exact Hc|]. split; [exact Hids|].
  split; [exact Hhash|]. split; [exact Hnext|]. split.
  - rewrite Hids. apply NoDup_seq.
  - intros Hold i Hi Hi'. rewrite Hids in Hi. apply elem_of_seq in Hi.
    rewrite Forall_forall in Hold. specialize (Hold i Hi'). lia.
Qed.

(** ** The walker of an Empty pattern *)

(** The [newWalker] that [addWalker(Empty, EmptyWalker)] assigns, which is
    the one a call of [newWalker] on an [Empty] runs, makes a new walker on
    each call: the walker observes the pattern it was called on and takes
    the next identifier, two calls give different walkers, and once a walker
    has been made, as the singleton has when the modules are loaded, the
    new walker is not the singleton, which is what the [newWalker] of the
    body of the class [Empty] returns.  [clone()] of the new walker returns
    it. *)
Theorem addWalker_Empty_new_walker (el : BasePattern) (resolver : nat)
    (h : Heap) :
  exists w h1 w2 h2,
    addWalker_Empty el resolver h = (Return w, h1)
    /\ addWalker_Empty el resolver h1 = (Return w2, h2)
    /\ Walker_el w = Empty el /\ Walker_el w2 = Empty el
    /\ Walker_hash w = Walker__id h /\ Walker_hash w2 = S (Walker__id h)
    /\ Walker__id h2 = 2 + Walker__id h
    /\ w <> w2
    /\ clone w h1 = (Return w, h1)
    /\ newWalker 1 (Empty el) resolver h = Some (Return w, h1)
    /\ (0 < Walker__id h ->
        w <> singleton
        /\ Empty_newWalker h <> addWalker_Empty el resolver h).
Proof.
  unfold addWalker_Empty, Empty_newWalker, Walker_new. munfold.
  cbn [Walker___newID].
  eexists _, _, _, _. split; [reflexivity|]. split; [reflexivity|].
  split; [done|]. split; [done|]. split; [done|]. split; [done|].
  split; [done|]. split; [intros [= Heq]; lia|]. split; [done|].
  split; [done|]. intros Hpos. split; intros [= Heq]; lia.
Qed.
